(** * GitLens hovers: time-bounded promises and best-effort enrichment lookups

    A shallow embedding of

    - [Promises.cancellable] and [Promises.CancellationError] (the
      [Promises] namespace of the system utilities), run on a small model
      of the JavaScript job queues: a heap of promises, the microtask
      queue, the timer table and cancellation-token listeners;
    - [Hovers.getAutoLinkedIssues], [Hovers.getPullRequestForCommit] and the
      combined await of [Hovers.detailsMessage] ([src/hovers/hovers.ts]),
      written in a small free monad of awaited calls;
    - [Hovers.changesMessage] and [getDiffFromHunkLine] of the same file,
      over the calls they await.  *)

From Stdlib Require Import ZArith String List Bool Arith Lia.
From stdpp Require Import base list.
Import ListNotations.
Open Scope string_scope.
Open Scope list_scope.

(* ===================================================================== *)
(** * Promises *)
(* ===================================================================== *)

Module Promises.

(** A promise is a heap address; two handles are the same promise exactly
    when the addresses are equal. *)
Abbreviation Ref := nat.
Abbreviation TimerId := nat.
Abbreviation TokenId := nat.

(** The values a promise is fulfilled or rejected with, as far as the code
    inspects them; none of them is a thenable.
    [VCancellationError promise message] is an instance of
    [class CancellationError<T> extends Error] with its [promise] field,
    here always a promise. *)
Inductive Value : Type :=
| VUndefined
| VBool (b : bool)
| VNum (n : Z)
| VStr (s : string)
| VError (message : string)
| VCancellationError (promise : Ref) (message : string).

(** What [resolve] is called with: a plain value or a promise. *)
Inductive Resolution : Type :=
| Plain (v : Value)
| Thenable (r : Ref).

(** [v instanceof Promises.CancellationError] *)
Definition is_CancellationError (v : Value) : bool :=
  match v with VCancellationError _ _ => true | _ => false end.

Inductive Settlement : Type :=
| Fulfilled (value : Value)
| Rejected (reason : Value).

(** The closures the code creates, defunctionalised.  [k] is the index of
    the [cancellable] call whose local variables the closure captured. *)
Inductive Closure : Type :=
| TimerCallback (k : nat)   (* the arrow function given to setTimeout *)
| TokenListener (k : nat)   (* the one given to onCancellationRequested *)
| OnFulfilled (k : nat)     (* first argument of promise.then *)
| OnRejected (k : nat)      (* second argument of promise.then *)
| AdoptFulfilled (w : Ref)  (* resolving functions made when [w] was *)
| AdoptRejected (w : Ref).  (* resolved with a thenable              *)

Record PromiseCell : Type := mkCell {
  state : option Settlement;              (* None: pending *)
  alreadyResolved : bool;                 (* shared flag of resolve / reject *)
  reactions : list (Closure * Closure)    (* registered then-callbacks *)
}.

(** What an [onDidCancel] callback does with the two functions it is
    handed: a sequence of calls made before it returns.  (A callback that
    keeps the functions for later, or throws, is not covered.) *)
Inductive CbAction : Type :=
| CbResolve (x : Resolution)
| CbReject (reason : Value).

Record Options : Type := mkOptions {
  cancelMessage : option string;
  onDidCancel : option (list CbAction)
}.

(** [timeoutOrToken: number | CancellationToken] *)
Inductive TimeoutOrToken : Type :=
| Timeout (ms : nat)
| Token (t : TokenId).

(** The variables of one [cancellable] call that its closures share. *)
Record Frame : Type := mkFrame {
  wrapper : Ref;            (* the promise under construction *)
  promise : Ref;
  options : Options;
  fulfilled : bool;
  timer : option TimerId
}.

Record Timer : Type := mkTimer {
  callback : Closure;
  due : nat;
  active : bool
}.

Inductive Job : Type :=
| ReactionJob (c : Closure) (arg : Value)
| ResolveThenableJob (w : Ref) (thenable : Ref).

(** What can be observed of a run. *)
Inductive Effect : Type :=
| ESettled (r : Ref) (s : Settlement)       (* a promise left the pending state *)
| ECallResolve (w : Ref) (x : Resolution)   (* resolve(x) was called *)
| ECallReject (w : Ref) (reason : Value)    (* reject(reason) was called *)
| ESetTimeout (id : TimerId) (ms : nat)
| EClearTimeout (id : TimerId)
| EListen (t : TokenId)
| EBoundFired (k : nat).                    (* the cancel branch of call k ran *)

Record State : Type := mkState {
  heap : list PromiseCell;
  frames : list Frame;
  timers : list Timer;
  listeners : list (TokenId * Closure);
  cancelled : list TokenId;
  microtasks : list Job;
  now : nat;
  trace : list Effect
}.

Definition with_heap (h : list PromiseCell) (st : State) : State :=
  mkState h (frames st) (timers st) (listeners st) (cancelled st)
          (microtasks st) (now st) (trace st).
Definition with_frames (f : list Frame) (st : State) : State :=
  mkState (heap st) f (timers st) (listeners st) (cancelled st)
          (microtasks st) (now st) (trace st).
Definition with_timers (t : list Timer) (st : State) : State :=
  mkState (heap st) (frames st) t (listeners st) (cancelled st)
          (microtasks st) (now st) (trace st).
Definition with_listeners (l : list (TokenId * Closure)) (st : State) : State :=
  mkState (heap st) (frames st) (timers st) l (cancelled st)
          (microtasks st) (now st) (trace st).
Definition with_cancelled (c : list TokenId) (st : State) : State :=
  mkState (heap st) (frames st) (timers st) (listeners st) c
          (microtasks st) (now st) (trace st).
Definition with_microtasks (q : list Job) (st : State) : State :=
  mkState (heap st) (frames st) (timers st) (listeners st) (cancelled st)
          q (now st) (trace st).
Definition with_now (n : nat) (st : State) : State :=
  mkState (heap st) (frames st) (timers st) (listeners st) (cancelled st)
          (microtasks st) n (trace st).
Definition emit (e : Effect) (st : State) : State :=
  mkState (heap st) (frames st) (timers st) (listeners st) (cancelled st)
          (microtasks st) (now st) (trace st ++ [e]).

Definition enqueue (j : Job) (st : State) : State :=
  with_microtasks (microtasks st ++ [j]) st.

(** ** Promise primitives *)

Definition reaction_job (s : Settlement) (r : Closure * Closure) : Job :=
  match s with
  | Fulfilled v => ReactionJob (fst r) v
  | Rejected e => ReactionJob (snd r) e
  end.

(** FulfillPromise / RejectPromise: a pending promise takes its final state
    and its reactions become microtasks; a settled one never changes. *)
Definition settle (r : Ref) (s : Settlement) (st : State) : State :=
  match heap st !! r with
  | Some c =>
      match state c with
      | None =>
          emit (ESettled r s)
            (with_microtasks (microtasks st ++ map (reaction_job s) (reactions c))
               (with_heap (<[r := mkCell (Some s) (alreadyResolved c) []]> (heap st)) st))
      | Some _ => st
      end
  | None => st
  end.

Definition mark_resolved (w : Ref) (st : State) : State :=
  match heap st !! w with
  | Some c => with_heap (<[w := mkCell (state c) true (reactions c)]> (heap st)) st
  | None => st
  end.

Definition is_resolved (w : Ref) (st : State) : bool :=
  match heap st !! w with
  | Some c => alreadyResolved c
  | None => true
  end.

(** The [resolve] function of promise [w].  A second call of either
    function is ignored; resolving with a promise defers to it through a
    microtask; resolving with itself is a TypeError. *)
Definition resolveFn (w : Ref) (x : Resolution) (st : State) : State :=
  let st := emit (ECallResolve w x) st in
  if is_resolved w st then st
  else
    let st := mark_resolved w st in
    match x with
    | Thenable r =>
        if Nat.eqb r w
        then settle w (Rejected (VError "Chaining cycle detected for promise")) st
        else enqueue (ResolveThenableJob w r) st
    | Plain v => settle w (Fulfilled v) st
    end.

(** The [reject] function of promise [w]. *)
Definition rejectFn (w : Ref) (reason : Value) (st : State) : State :=
  let st := emit (ECallReject w reason) st in
  if is_resolved w st then st
  else settle w (Rejected reason) (mark_resolved w st).

(** [r.then(onF, onR)]; the derived promise is not used by the code. *)
Definition promise_then (r : Ref) (onF onR : Closure) (st : State) : State :=
  match heap st !! r with
  | Some c =>
      match state c with
      | None =>
          with_heap (<[r := mkCell None (alreadyResolved c) (reactions c ++ [(onF, onR)])]> (heap st)) st
      | Some s => enqueue (reaction_job s (onF, onR)) st
      end
  | None => st
  end.

(** ** Timers and cancellation tokens *)

(** The delay a timer is armed with.  [setTimeout] keeps the delay in a
    signed 32-bit integer: one above 2^31-1 is replaced by 1.  (A delay is
    a natural number of milliseconds here; NaN, negative and fractional
    delays are not.) *)
Definition timer_delay (ms : nat) : nat :=
  if Z.ltb 2147483647 (Z.of_nat ms) then 1 else ms.

Arguments timer_delay : simpl never.

Definition setTimeout (cb : Closure) (ms : nat) (st : State) : TimerId * State :=
  let id := length (timers st) in
  (id, emit (ESetTimeout id ms)
         (with_timers (timers st ++ [mkTimer cb (now st + timer_delay ms) true]) st)).

Definition clearTimeout (id : TimerId) (st : State) : State :=
  match timers st !! id with
  | Some t => emit (EClearTimeout id)
                (with_timers (<[id := mkTimer (callback t) (due t) false]> (timers st)) st)
  | None => emit (EClearTimeout id) st
  end.

(** [token.onCancellationRequested(listener)]; the Disposable it returns is
    what a caller would use to detach the listener.  Tokens are taken as
    not yet cancelled when a listener is added: for a token that already
    is, VS Code calls the listener from a timer task of its own after the
    call, which is the run that has [TokenCancelled] as a later event. *)
Definition onCancellationRequested (t : TokenId) (l : Closure) (st : State) : State :=
  emit (EListen t) (with_listeners (listeners st ++ [(t, l)]) st).

(** ** cancellable *)

(** [options.cancelMessage || dflt] : an absent and an empty message are
    both falsy. *)
Definition message_or (m : option string) (dflt : string) : string :=
  match m with
  | Some s => if String.eqb s "" then dflt else s
  | None => dflt
  end.

Definition run_action (w : Ref) (a : CbAction) (st : State) : State :=
  match a with
  | CbResolve x => resolveFn w x st
  | CbReject e => rejectFn w e st
  end.

(** [options.onDidCancel(resolve, reject)] *)
Definition run_onDidCancel (w : Ref) (cb : list CbAction) (st : State) : State :=
  fold_left (fun s a => run_action w a s) cb st.

Definition set_fulfilled (k : nat) (st : State) : State :=
  match frames st !! k with
  | Some f => with_frames (<[k := mkFrame (wrapper f) (promise f) (options f) true (timer f)]> (frames st)) st
  | None => st
  end.

(** Calling a closure with one argument: the bodies of the four arrow
    functions of [cancellable] (lines 26-32, 34-42, 46-52, 53-59) and of
    the adopting functions. *)
Definition call (c : Closure) (arg : Value) (st : State) : State :=
  match c with
  | TimerCallback k =>
      match frames st !! k with
      | Some f =>
          let st := emit (EBoundFired k) st in
          match onDidCancel (options f) with
          | Some cb => run_onDidCancel (wrapper f) cb st
          | None =>
              rejectFn (wrapper f)
                (VCancellationError (promise f)
                   (message_or (cancelMessage (options f)) "TIMED OUT")) st
          end
      | None => st
      end
  | TokenListener k =>
      match frames st !! k with
      | Some f =>
          if fulfilled f then st
          else
            let st := emit (EBoundFired k) st in
            match onDidCancel (options f) with
            | Some cb => run_onDidCancel (wrapper f) cb st
            | None =>
                rejectFn (wrapper f)
                  (VCancellationError (promise f)
                     (message_or (cancelMessage (options f)) "CANCELLED")) st
            end
      | None => st
      end
  | OnFulfilled k =>
      match frames st !! k with
      | Some f =>
          let st := set_fulfilled k st in
          let st := match timer f with
                    | Some id => clearTimeout id st
                    | None => st
                    end in
          resolveFn (wrapper f) (Thenable (promise f)) st
      | None => st
      end
  | OnRejected k =>
      match frames st !! k with
      | Some f =>
          let st := set_fulfilled k st in
          let st := match timer f with
                    | Some id => clearTimeout id st
                    | None => st
                    end in
          rejectFn (wrapper f) arg st
      | None => st
      end
  | AdoptFulfilled w => settle w (Fulfilled arg) st
  | AdoptRejected w => settle w (Rejected arg) st
  end.

(** [Promises.cancellable(promise, timeoutOrToken, options)] (lines 11-62):
    allocates the returned promise and runs the executor, which arms the
    bound and then subscribes to [promise]. *)
Definition cancellable (promise : Ref) (timeoutOrToken : TimeoutOrToken)
    (options : Options) (st : State) : Ref * State :=
  let w := length (heap st) in
  let k := length (frames st) in
  let st := with_heap (heap st ++ [mkCell None false []]) st in
  (* let fulfilled = false; let timer; *)
  let st := with_frames (frames st ++ [mkFrame w promise options false None]) st in
  let st :=
    match timeoutOrToken with
    | Timeout ms =>
        let '(id, st) := setTimeout (TimerCallback k) ms st in
        with_frames (<[k := mkFrame w promise options false (Some id)]> (frames st)) st
    | Token t => onCancellationRequested t (TokenListener k) st
    end in
  let st := promise_then promise (OnFulfilled k) (OnRejected k) st in
  (w, st).

(** ** The job queues *)

Definition run_job (j : Job) (st : State) : State :=
  match j with
  | ReactionJob c arg => call c arg st
  | ResolveThenableJob w r => promise_then r (AdoptFulfilled w) (AdoptRejected w) st
  end.

Definition is_wrapper (r : Ref) (st : State) : bool :=
  existsb (fun f => Nat.eqb (wrapper f) r) (frames st).

Definition token_listeners (t : TokenId) (st : State) : list Closure :=
  map snd (List.filter (fun p => Nat.eqb (fst p) t) (listeners st)).

Definition timer_ready (id : TimerId) (st : State) : bool :=
  match timers st !! id with
  | Some t => active t && Nat.leb (due t) (now st)
  | None => false
  end.

(** What can happen next.  Settling an operation and cancelling a token
    are done by other code and may come at any point; a timer callback is
    a task of its own and only starts once the microtask queue is empty. *)
Inductive Event : Type :=
| OperationSettles (r : Ref) (s : Settlement)
| TokenCancelled (t : TokenId)
| Elapse (ms : nat)
| TimerFires (id : TimerId)
| Microtask.

Definition step (e : Event) (st : State) : State :=
  match e with
  | OperationSettles r s =>
      if is_wrapper r st then st
      else settle r s (mark_resolved r st)
  | TokenCancelled t =>
      if existsb (Nat.eqb t) (cancelled st) then st
      else fold_left (fun s l => call l VUndefined s) (token_listeners t st)
             (with_cancelled (t :: cancelled st) st)
  | Elapse ms => with_now (now st + ms) st
  | TimerFires id =>
      match microtasks st, timers st !! id with
      | [], Some t =>
          if timer_ready id st
          then call (callback t) VUndefined
                 (with_timers (<[id := mkTimer (callback t) (due t) false]> (timers st)) st)
          else st
      | _, _ => st
      end
  | Microtask =>
      match microtasks st with
      | j :: q => run_job j (with_microtasks q st)
      | [] => st
      end
  end.

Definition run (sched : list Event) (st : State) : State :=
  fold_left (fun s e => step e s) sched st.

(** ** Observations *)

(** The world in which [cancellable] is called: the operation is the only
    promise, at address 0, pending or already settled. *)
Definition operation : Ref := 0.

Definition init (o : option Settlement) : State :=
  mkState [mkCell o (match o with Some _ => true | None => false end) []]
          [] [] [] [] [] 0 [].

Definition state_of (r : Ref) (st : State) : option Settlement :=
  match heap st !! r with
  | Some c => state c
  | None => None
  end.

Definition is_settlement_of (r : Ref) (e : Effect) : bool :=
  match e with
  | ESettled r' _ => Nat.eqb r' r
  | _ => false
  end.

(** How many times promise [r] has settled so far. *)
Definition settlements (r : Ref) (st : State) : nat :=
  length (List.filter (is_settlement_of r) (trace st)).

(** Whether the cancel branch of call [k] has run. *)
Definition is_fired (k : nat) (e : Effect) : bool :=
  match e with
  | EBoundFired k' => Nat.eqb k' k
  | _ => false
  end.

Definition bound_fired (k : nat) (st : State) : bool :=
  existsb (is_fired k) (trace st).

(** ** Every promise settles at most once

    [Ext r st st'] : from [st] to [st'] the trace only grew, and promise
    [r] either kept its state and its count of settlements, or went from
    pending to settled with exactly one more. *)

Definition unchanged (r : Ref) (st st' : State) : Prop :=
  state_of r st' = state_of r st /\ settlements r st' = settlements r st.

Definition just_settled (r : Ref) (st st' : State) : Prop :=
  state_of r st = None /\ state_of r st' <> None /\
  settlements r st' = S (settlements r st).

Record Ext (r : Ref) (st st' : State) : Prop := mkExt {
  ext_trace : exists tr, trace st' = trace st ++ tr;
  ext_obs : unchanged r st st' \/ just_settled r st st'
}.

(** The count of settlements agrees with the state: 0 while pending,
    1 once settled. *)
Definition counted (r : Ref) (st : State) : Prop :=
  settlements r st = match state_of r st with Some _ => 1 | None => 0 end.

(** ** One call of [cancellable]

    The states a single call can reach, by how far the operation's
    settlement has travelled ([Phase]) and whether the cancel branch has
    rejected the wrapper ([c]). *)

Section SingleCall.

Variable b : TimeoutOrToken.
Variable opts : Options.

Inductive Phase : Type :=
| OpPending                    (* the operation has not settled *)
| OpQueued (out : Settlement)  (* settled; the then-callback is queued *)
| OpAdopt1 (v : Value)         (* resolve(promise) ran; thenable job queued *)
| OpAdopt2 (v : Value)         (* the adopting reaction is queued *)
| OpDone (out : Settlement).   (* the then-callback and what it queued ran *)

Definition default_message : string :=
  match b with Timeout _ => "TIMED OUT" | Token _ => "CANCELLED" end.

(** The error the cancel branch builds. *)
Definition cancellation : Value :=
  VCancellationError operation
    (message_or (cancelMessage opts) default_message).

Definition callbacks : Closure * Closure := (OnFulfilled 0, OnRejected 0).

Definition cellO (ph : Phase) : PromiseCell :=
  match ph with
  | OpPending => mkCell None false [callbacks]
  | OpQueued out | OpDone out => mkCell (Some out) true []
  | OpAdopt1 v | OpAdopt2 v => mkCell (Some (Fulfilled v)) true []
  end.

Definition cellW (ph : Phase) (c : bool) : PromiseCell :=
  if c then mkCell (Some (Rejected cancellation)) true []
  else match ph with
       | OpPending | OpQueued _ => mkCell None false []
       | OpAdopt1 _ | OpAdopt2 _ => mkCell None true []
       | OpDone out => mkCell (Some out) true []
       end.

Definition queue (ph : Phase) : list Job :=
  match ph with
  | OpPending | OpDone _ => []
  | OpQueued out => [reaction_job out callbacks]
  | OpAdopt1 _ => [ResolveThenableJob 1 operation]
  | OpAdopt2 v => [ReactionJob (AdoptFulfilled 1) v]
  end.

Definition delivered (ph : Phase) : bool :=
  match ph with OpPending | OpQueued _ => false | _ => true end.

Definition adopting (ph : Phase) : bool :=
  match ph with OpAdopt1 _ | OpAdopt2 _ => true | _ => false end.

Record Inv (ph : Phase) (c : bool) (st : State) : Prop := mkInv {
  inv_heap : heap st = [cellO ph; cellW ph c];
  inv_frames :
    frames st = [mkFrame 1 operation opts (delivered ph)
                   (match b with Timeout _ => Some 0 | Token _ => None end)];
  inv_timers :
    timers st = match b with
                | Timeout ms =>
                    [mkTimer (TimerCallback 0) (timer_delay ms)
                       (negb c && negb (delivered ph))]
                | Token _ => []
                end;
  inv_listeners :
    listeners st = match b with
                   | Timeout _ => []
                   | Token t => [(t, TokenListener 0)]
                   end;
  inv_queue : microtasks st = queue ph;
  inv_fired : bound_fired 0 st = c;
  inv_adopt : c && adopting ph = false
}.

(** The state right after the call. *)
Definition called (o : option Settlement) : State :=
  snd (cancellable operation b opts (init o)).

Definition first_phase (o : option Settlement) : Phase :=
  match o with None => OpPending | Some out => OpQueued out end.

End SingleCall.

Arguments run_onDidCancel : simpl never.

(** The phases in which the bound can no longer win: the then-callback
    has run, or it is queued and the bound is a timer (a timer callback
    waits for the microtask queue to drain). *)
Definition safe (b : TimeoutOrToken) (ph : Phase) : bool :=
  match ph with
  | OpPending => false
  | OpQueued _ => match b with Timeout _ => true | Token _ => false end
  | _ => true
  end.

(** The promise [cancellable] returns. *)
Definition returned (b : TimeoutOrToken) (opts : Options) (o : option Settlement) : Ref :=
  fst (cancellable operation b opts (init o)).

(** ** What is left of the bound *)

Definition is_timer_of (k : nat) (c : Closure) : bool :=
  match c with TimerCallback k' => Nat.eqb k' k | _ => false end.

Definition is_listener_of (k : nat) (c : Closure) : bool :=
  match c with TokenListener k' => Nat.eqb k' k | _ => false end.

(** A timer of call [k] that can still fire. *)
Definition timer_armed (k : nat) (st : State) : bool :=
  existsb (fun t => active t && is_timer_of k (callback t)) (timers st).

(** A listener of call [k] still registered with a token. *)
Definition listener_attached (k : nat) (st : State) : bool :=
  existsb (fun p => is_listener_of k (snd p)) (listeners st).

Definition disarmed (k : nat) (st : State) : bool :=
  negb (timer_armed k st) && negb (listener_attached k st).

(** The operation's outcome reaches the wrapper and the cancel branch
    stays out of it. *)
Definition operation_wins (b : TimeoutOrToken) (w : Ref) (out : Settlement)
    (st : State) : Prop :=
  bound_fired 0 st = false /\
  (state_of w st = None \/ state_of w st = Some out) /\
  (microtasks st = [] -> state_of w st = Some out /\ timer_armed 0 st = false) /\
  listener_attached 0 st = match b with Token _ => true | Timeout _ => false end.

(** Where the race stands once the operation's settlement is ahead: at
    once for a timer, after the then-callback has run for a token. *)
Definition ahead (b : TimeoutOrToken) (st : State) : State :=
  match b with
  | Timeout _ => st
  | Token _ => step Microtask st
  end.

(** The wrapper has the operation's outcome and nothing of the bound is
    left behind: no armed timer, no registered listener. *)
Definition settled_and_disarmed (w : Ref) (out : Settlement) (st : State) : Prop :=
  state_of w st = Some out /\ disarmed 0 st = true.

(** ** The bound firing *)

(** The event in which the bound of call 0 fires. *)
Definition firing (b : TimeoutOrToken) : Event :=
  match b with
  | Timeout _ => TimerFires 0
  | Token t => TokenCancelled t
  end.

(** The timer is due, or the token has not been cancelled before. *)
Definition bound_ready (b : TimeoutOrToken) (st : State) : bool :=
  match b with
  | Timeout ms => Nat.leb (timer_delay ms) (now st)
  | Token t => negb (existsb (Nat.eqb t) (cancelled st))
  end.

(** The bookkeeping of the firing itself: the timer is spent, the token
    is cancelled. *)
Definition spent (b : TimeoutOrToken) (st : State) : State :=
  match b with
  | Timeout ms => with_timers [mkTimer (TimerCallback 0) (timer_delay ms) false] st
  | Token t => with_cancelled (t :: cancelled st) st
  end.

(** What a callback's calls make of a pending promise [w]: the first call
    decides. *)
Definition decided (w : Ref) (cb : list CbAction) : option Settlement :=
  match cb with
  | [] => None
  | CbReject r :: _ => Some (Rejected r)
  | CbResolve (Thenable r) :: _ =>
      if Nat.eqb r w
      then Some (Rejected (VError "Chaining cycle detected for promise"))
      else None
  | CbResolve (Plain v) :: _ => Some (Fulfilled v)
  end.

(** The caller's message whenever one is supplied, empty or not: what
    [message_or] would be if [||] tested for undefined only. *)
Definition supplied_or (m : option string) (dflt : string) : string :=
  match m with Some s => s | None => dflt end.

(** The wrapper is rejected with some [CancellationError]. *)
Definition settles_cancelled (w : Ref) (st : State) : Prop :=
  exists p m, state_of w st = Some (Rejected (VCancellationError p m)).

End Promises.

(* ===================================================================== *)
(** * Hovers *)
(* ===================================================================== *)

Module Hovers.

Import Promises.

(** ** The collaborators' data *)

Record RemoteProvider : Type := mkProvider {
  providerName : string;
  hasApi : bool;                    (* provider.hasApi() *)
  maybeConnected : option bool      (* boolean | undefined *)
}.

Record GitRemote : Type := mkRemote {
  remoteName : string;
  default : bool;
  provider : option RemoteProvider  (* null when the remote has none *)
}.

Record PullRequest : Type := mkPullRequest {
  number : nat;
  title : string
}.

(** An entry of the map [getIssueLinks] resolves to: an issue, or the
    [CancellationError] of a query that took too long, with its promise. *)
Inductive IssueOrCancellation : Type :=
| AnIssue (id : string) (title : string)
| ACancellation (promise : Ref) (message : string).

(** [Map<string, IssueOrPullRequest | CancellationError>], in insertion order *)
Abbreviation IssueLinks := (list (string * IssueOrCancellation)).

(** What [getPullRequestForCommit] returns besides [undefined]. *)
Inductive PullRequestOrRemote : Type :=
| APullRequest (pr : PullRequest)
| ARemote (remote : GitRemote)
| ACancellationError (ex : Value).

Record DiffUris : Type := mkDiffUris {
  previous : option string;
  current : string
}.

Record GitCommit : Type := mkCommit {
  repoPath : string;
  ref : string;
  message : string;
  email : option string;
  isUncommitted : bool
}.

Record GitUri : Type := mkUri {
  sha : option string
}.

Inductive TraceLevel : Type := Silent | Errors | Verbose | Debug.

Inductive FileAnnotationType : Type := Blame | Heatmap | RecentChanges.

Record Config : Type := mkConfig {
  autolinks_enabled : bool;         (* config.hovers.autolinks.enabled *)
  autolinks_enhanced : bool;        (* config.hovers.autolinks.enhanced *)
  pullRequests_enabled : bool;      (* config.hovers.pullRequests.enabled *)
  detailsMarkdownFormat : string;   (* config.hovers.detailsMarkdownFormat *)
  logger_level : TraceLevel;        (* Logger.level *)
  logger_isDebugging : bool         (* Logger.isDebugging *)
}.

Record FormatOptions : Type := mkFormatOptions {
  fo_annotationType : option FileAnnotationType;
  fo_autolinkedIssues : option IssueLinks;
  fo_dateFormat : string;
  fo_line : nat;
  fo_markdown : bool;
  fo_pullRequestOrRemote : option PullRequestOrRemote;
  fo_presence : option string;
  fo_previousLineDiffUris : option DiffUris;
  fo_remotes : list GitRemote
}.

Record MarkdownString : Type := mkMarkdown {
  value : string;
  isTrusted : bool
}.

(** ** Awaited calls *)

(** The asynchronous calls into the rest of the extension. *)
Inductive Call : Type :=
| GetRemotes (repoPath : string)
| GetPreviousLineDiffUris (commit : GitCommit) (editorLine : nat) (ref : option string)
| GetIssueLinks (message : string) (remote : GitRemote) (timeout : nat)
| IsConnected (p : RemoteProvider)
| GitGetPullRequestForCommit (ref : string) (p : RemoteProvider) (timeout : nat)
| MaybeGetPresence (email : option string).

Definition Response (c : Call) : Type :=
  match c with
  | GetRemotes _ => list GitRemote
  | GetPreviousLineDiffUris _ _ _ => option DiffUris
  | GetIssueLinks _ _ _ => option IssueLinks
  | IsConnected _ => bool
  | GitGetPullRequestForCommit _ _ _ => option PullRequest
  | MaybeGetPresence _ => option string
  end.

(** How a promise ends. *)
Inductive Settled (X : Type) : Type :=
| Resolved (x : X)
| Threw (ex : Value).
Arguments Resolved {X} x.
Arguments Threw {X} ex.

Inductive LogLine : Type :=
| DebugLine (text : string)
| ErrorLine (ex : Value) (text : string).

(** The body of an async function: it returns, throws, logs, or awaits a
    call and goes on with how that call ended. *)
Inductive Async (R : Type) : Type :=
| Return (r : R)
| Throw (ex : Value)
| Await (c : Call) (k : Settled (Response c) -> Async R)
| Log (l : LogLine) (k : Async R).
Arguments Return {R} r.
Arguments Throw {R} ex.
Arguments Await {R} c k.
Arguments Log {R} l k.

Fixpoint bind {A B : Type} (m : Async A) (f : A -> Async B) : Async B :=
  match m with
  | Return a => f a
  | Throw ex => Throw ex
  | Await c k => Await c (fun s => bind (k s) f)
  | Log l k => Log l (bind k f)
  end.

Notation "x <- m ;; k" := (bind m (fun x => k))
  (at level 100, m at next level, right associativity).
Notation "m ;;; k" := (bind m (fun _ => k))
  (at level 100, right associativity).

(** [await call]: a rejection is thrown at the await. *)
Definition await (c : Call) : Async (Response c) :=
  Await c (fun s => match s with
                    | Resolved x => Return x
                    | Threw ex => Throw ex
                    end).

Definition log (l : LogLine) : Async unit := Log l (Return tt).

(** [try { body } catch (ex) { handler }] *)
Fixpoint try_catch {A : Type} (body : Async A) (handler : Value -> Async A) : Async A :=
  match body with
  | Return a => Return a
  | Throw ex => handler ex
  | Await c k => Await c (fun s => try_catch (k s) handler)
  | Log l k => Log l (try_catch k handler)
  end.

(** How every call ends, decided by the rest of the extension. *)
Definition Env : Type := forall c : Call, Settled (Response c).

Inductive Event : Type :=
| Issued (c : Call)
| Logged (l : LogLine).

(** Running a body: what was issued and logged, in order, and how the
    function's promise ends. *)
Fixpoint exec {R : Type} (env : Env) (m : Async R) : list Event * Settled R :=
  match m with
  | Return r => ([], Resolved r)
  | Throw ex => ([], Threw ex)
  | Await c k =>
      let (t, r) := exec env (k (env c)) in (Issued c :: t, r)
  | Log l k =>
      let (t, r) := exec env k in (Logged l :: t, r)
  end.

Definition is_call (e : Event) : bool :=
  match e with Issued _ => true | Logged _ => false end.

(** The calls a run issued. *)
Definition calls (t : list Event) : list Event := List.filter is_call t.

Definition is_lookup_call (e : Event) : bool :=
  match e with
  | Issued (GetIssueLinks _ _ _) | Issued (GitGetPullRequestForCommit _ _ _) => true
  | _ => false
  end.

(** The lookup calls among them: the issue-links and pull-request queries. *)
Definition lookup_calls (t : list Event) : list Event := List.filter is_lookup_call t.

Section Lookups.

(** [Container.config] and [Logger] *)
Variable config : Config.

(** [CommitFormatter.has(format, ...tokens)] *)
Variable has : string -> list string -> bool.

(** [CommitFormatter.fromTemplate(format, commit, options)] *)
Variable fromTemplate : string -> GitCommit -> FormatOptions -> string.

(** [Iterables.filterMap(source, predicateMapper)], here over the values
    of the issue map *)
Variable filterMap :
  (IssueOrCancellation -> option Ref) -> list IssueOrCancellation -> list Ref.

(** [r => r.default && r.provider != null] *)
Definition is_default_with_provider (r : GitRemote) : bool :=
  default r && match provider r with Some _ => true | None => false end.

Definition debugging : bool :=
  match logger_level config with Debug => true | _ => false end
  || logger_isDebugging config.

Definition completed : Async unit := log (DebugLine "completed").

Definition getAutoLinkedIssues (message : string) (remotes : list GitRemote)
  : Async (option IssueLinks) :=
  log (DebugLine "message=<message>") ;;;
  if negb (autolinks_enabled config)
     || negb (autolinks_enhanced config)
     || negb (has (detailsMarkdownFormat config) ["message"])
  then completed ;;; Return None
  else
    match List.find is_default_with_provider remotes with
    | None => completed ;;; Return None
    | Some remote =>
        let timeout := 250 in
        try_catch
          (autolinkedIssues <- await (GetIssueLinks message remote timeout) ;;
           match autolinkedIssues with
           | Some issues =>
               if debugging then
                 let timeouts :=
                   filterMap (fun issue => match issue with
                                           | ACancellation promise _ => Some promise
                                           | AnIssue _ _ => None
                                           end) (map snd issues) in
                 if negb (Nat.eqb (length timeouts) 0)
                 then log (DebugLine "timed out") ;;; Return autolinkedIssues
                 else completed ;;; Return autolinkedIssues
               else completed ;;; Return autolinkedIssues
           | None => completed ;;; Return autolinkedIssues
           end)
          (fun ex => log (ErrorLine ex "failed") ;;; Return None)
    end.

Definition pullRequestTokens : list string :=
  ["pullRequest"; "pullRequestAgo"; "pullRequestAgoOrDate";
   "pullRequestDate"; "pullRequestState"].

(** [remote?.provider?.hasApi()] : undefined when a link is missing *)
Definition remote_hasApi (remote : option GitRemote) : bool :=
  match remote with
  | Some r => match provider r with
              | Some p => hasApi p
              | None => false
              end
  | None => false
  end.

Definition getPullRequestForCommit (ref : string) (remotes : list GitRemote)
  : Async (option PullRequestOrRemote) :=
  log (DebugLine ("ref=" ++ ref)%string) ;;;
  if negb (pullRequests_enabled config)
     || negb (has (detailsMarkdownFormat config) pullRequestTokens)
  then completed ;;; Return None
  else
    let remote := List.find is_default_with_provider remotes in
    if negb (remote_hasApi remote)
    then completed ;;; Return None
    else
      match remote with
      | Some remote =>
          match provider remote with
          | Some provider =>
              connected <- match maybeConnected provider with
                           | Some c => Return c
                           | None => await (IsConnected provider)
                           end ;;
              if negb connected
              then completed ;;; Return (Some (ARemote remote))
              else
                try_catch
                  (pr <- await (GitGetPullRequestForCommit ref provider 250) ;;
                   completed ;;;
                   Return (option_map APullRequest pr))
                  (fun ex =>
                     if is_CancellationError ex
                     then log (DebugLine "timed out") ;;;
                          Return (Some (ACancellationError ex))
                     else log (ErrorLine ex "failed") ;;; Return None)
          | None => completed ;;; Return None
          end
      | None => completed ;;; Return None
      end.

(** [Promise.all] of the four members of [detailsMessage]: the tuple when
    all resolve, a rejection when one rejects.  JavaScript rejects with
    the member that rejects first in time; with no clock here it is the
    first in array order.  Likewise [detailsMessage] lists the members'
    calls member by member, where the code interleaves them in time. *)
Definition all4 {A B C D : Type} (a : Settled A) (b : Settled B) (c : Settled C)
    (d : Settled D) : Settled (A * B * C * D) :=
  match a, b, c, d with
  | Resolved x, Resolved y, Resolved z, Resolved u => Resolved (x, y, z, u)
  | Threw ex, _, _, _ => Threw ex
  | _, Threw ex, _, _ => Threw ex
  | _, _, Threw ex, _ => Threw ex
  | _, _, _, Threw ex => Threw ex
  end.

(** The four members, each started before any is awaited. *)
Definition previousLineDiffUris_member (commit : GitCommit) (uri : GitUri)
    (editorLine : nat) : Async (option DiffUris) :=
  if isUncommitted commit
  then await (GetPreviousLineDiffUris commit editorLine (sha uri))
  else Return None.

(** [Container.vsls.maybeGetPresence(commit.email).catch(reason => undefined)] *)
Definition presence_member (commit : GitCommit) : Async (option string) :=
  try_catch (await (MaybeGetPresence (email commit))) (fun _ => Return None).

Definition detailsMessage (env : Env) (commit : GitCommit) (uri : GitUri)
    (editorLine : nat) (dateFormat : option string)
    (annotationType : option FileAnnotationType)
  : list Event * Settled MarkdownString :=
  let dateFormat := match dateFormat with
                    | None => "MMMM Do, YYYY h:mma"
                    | Some f => f
                    end in
  match env (GetRemotes (repoPath commit)) with
  | Threw ex => ([Issued (GetRemotes (repoPath commit))], Threw ex)
  | Resolved remotes =>
      let (t1, r1) := exec env (previousLineDiffUris_member commit uri editorLine) in
      let (t2, r2) := exec env (getAutoLinkedIssues (message commit) remotes) in
      let (t3, r3) := exec env (getPullRequestForCommit (ref commit) remotes) in
      let (t4, r4) := exec env (presence_member commit) in
      let t := Issued (GetRemotes (repoPath commit)) :: t1 ++ t2 ++ t3 ++ t4 in
      match all4 r1 r2 r3 r4 with
      | Resolved (previousLineDiffUris, autolinkedIssues, pr, presence) =>
          let details :=
            fromTemplate (detailsMarkdownFormat config) commit
              (mkFormatOptions annotationType autolinkedIssues dateFormat
                 editorLine true pr presence previousLineDiffUris remotes) in
          (t, Resolved (mkMarkdown details true))
      | Threw ex => (t, Threw ex)
      end
  end.

End Lookups.

(** ** Examples

    A configuration with every feature on, a template test that finds
    every token, and some remotes and environments. *)
Definition all_on : Config := mkConfig true true true "${message}${pullRequest}" Silent false.

Definition has_everything (format : string) (tokens : list string) : bool := true.

(** A [filterMap] over lists: maps, and keeps what is mapped to something. *)
Fixpoint keep_mapped {A B : Type} (f : A -> option B) (l : list A) : list B :=
  match l with
  | [] => []
  | a :: l' => match f a with
               | Some b => b :: keep_mapped f l'
               | None => keep_mapped f l'
               end
  end.

Definition github (api : bool) (connected : option bool) : GitRemote :=
  mkRemote "origin" true (Some (mkProvider "GitHub" api connected)).

(** Every call resolves, with nothing found and nothing connected. *)
Definition quiet_env : Env :=
  fun c => match c with
           | GetRemotes _ => Resolved []
           | GetPreviousLineDiffUris _ _ _ => Resolved None
           | GetIssueLinks _ _ _ => Resolved None
           | IsConnected _ => Resolved false
           | GitGetPullRequestForCommit _ _ _ => Resolved None
           | MaybeGetPresence _ => Resolved None
           end.

(** "Skip but remember the remote": the lookup resolves to the remote
    itself, and no pull-request call is issued. *)
Definition remembers_remote (remote : GitRemote)
    (run : list Event * Settled (option PullRequestOrRemote)) : Prop :=
  snd run = Resolved (Some (ARemote remote)) /\
  forall ref p timeout,
    ~ In (Issued (GitGetPullRequestForCommit ref p timeout)) (fst run).

(** A [CancellationError] for the pull-request query still running as
    promise 7, and an environment in which a connected provider's
    pull-request call times out and the issue-links call resolves to one
    issue and one timed-out query. *)
Definition pr_timeout : Value := VCancellationError 7 "TIMED OUT".

Definition some_links : IssueLinks :=
  [("#12", AnIssue "12" "Hover flickers");
   ("#34", ACancellation 9 "TIMED OUT")].

Definition slow_env : Env :=
  fun c => match c with
           | GetRemotes _ => Resolved [github true (Some true)]
           | GetPreviousLineDiffUris _ _ _ => Resolved None
           | GetIssueLinks _ _ _ => Resolved (Some some_links)
           | IsConnected _ => Resolved true
           | GitGetPullRequestForCommit _ _ _ => Threw pr_timeout
           | MaybeGetPresence _ => Resolved None
           end.

(** An environment in which both lookup calls fail with plain errors. *)
Definition failing_env : Env :=
  fun c => match c with
           | GetRemotes _ => Resolved [github true None]
           | GetPreviousLineDiffUris _ _ _ => Resolved None
           | GetIssueLinks _ _ _ => Threw (VError "503 Service Unavailable")
           | IsConnected _ => Resolved true
           | GitGetPullRequestForCommit _ _ _ => Threw (VError "ECONNRESET")
           | MaybeGetPresence _ => Threw (VError "no session")
           end.

(** The provider cannot be reached: asking whether it is connected fails. *)
Definition offline_env : Env :=
  fun c => match c with
           | GetRemotes _ => Resolved [github true None]
           | GetPreviousLineDiffUris _ _ _ => Resolved None
           | GetIssueLinks _ _ _ => Resolved None
           | IsConnected _ => Threw (VError "ENOTFOUND")
           | GitGetPullRequestForCommit _ _ _ => Resolved None
           | MaybeGetPresence _ => Resolved None
           end.

Definition plain_template (format : string) (commit : GitCommit)
    (options : FormatOptions) : string := message commit.

End Hovers.

(* ===================================================================== *)
(** * More of Promises.cancellable: time, silence, and the operation *)
(* ===================================================================== *)

Module PromisesMore.

Import Promises.

(** ** Schedules in which the bound cannot fire *)

(** The time an event takes. *)
Definition duration (e : Event) : nat :=
  match e with Elapse ms => ms | _ => 0 end.

(** The time a schedule takes. *)
Definition elapsed (sched : list Event) : nat :=
  fold_right (fun e n => duration e + n) 0 sched.

(** An event that cannot be the bound firing: the cancellation of another
    token, a timer task before the delay has passed, or anything else. *)
Definition cannot_fire (b : TimeoutOrToken) (e : Event) (st : State) : Prop :=
  match b, e with
  | Token t, TokenCancelled t' => t' <> t
  | Timeout ms, TimerFires _ => now st < timer_delay ms
  | _, _ => True
  end.

(** The wrapper follows the operation: the cancel branch has not run, the
    wrapper is pending or has the operation's state, and has it once the
    microtasks have run. *)
Definition follows (w : Ref) (st : State) : Prop :=
  bound_fired 0 st = false /\
  (state_of w st = None \/ state_of w st = state_of operation st) /\
  (microtasks st = [] -> state_of w st = state_of operation st).

(** ** What the call can touch

    Whatever [onDidCancel] does with [resolve] and [reject], the closures
    that become promise reactions and microtasks are the then-callbacks of
    the call and the adopting functions of the wrapper (promise 1): none
    of them settles another promise, and none is the cancel branch. *)

Definition good (c : Closure) : Prop :=
  match c with
  | AdoptFulfilled w | AdoptRejected w => w = 1
  | OnFulfilled _ | OnRejected _ => True
  | TimerCallback _ | TokenListener _ => False
  end.

Definition react_ok (r : Closure * Closure) : Prop := good (fst r) /\ good (snd r).

Definition job_ok (j : Job) : Prop :=
  match j with
  | ReactionJob c _ => good c
  | ResolveThenableJob w _ => w = 1
  end.

(** The states of one call, with any options: the operation and the
    wrapper, the frame of the call, its one timer or its one listener. *)
Definition Shape (b : TimeoutOrToken) (opts : Options) (st : State) : Prop :=
  exists c0 c1 fl,
    heap st = [c0; c1] /\
    frames st = [mkFrame 1 operation opts fl
                   (match b with Timeout _ => Some 0 | Token _ => None end)] /\
    match b with
    | Timeout ms => exists a, timers st = [mkTimer (TimerCallback 0) (timer_delay ms) a]
    | Token _ => timers st = []
    end /\
    listeners st = match b with
                   | Timeout _ => []
                   | Token t => [(t, TokenListener 0)]
                   end /\
    Forall react_ok (reactions c0) /\ Forall react_ok (reactions c1) /\
    Forall job_ok (microtasks st).

(** How many times the cancel branch of call [k] has run. *)
Definition fired_count (k : nat) (st : State) : nat :=
  length (List.filter (is_fired k) (trace st)).

(** From [st] to [st'] the operation kept its state, the cancel branch did
    not run, no token was cancelled and no timer was armed. *)
Definition Calm (b : TimeoutOrToken) (opts : Options) (st st' : State) : Prop :=
  Shape b opts st' /\
  state_of operation st' = state_of operation st /\
  fired_count 0 st' = fired_count 0 st /\
  cancelled st' = cancelled st /\
  (timer_armed 0 st' = true -> timer_armed 0 st = true).

(** The same, but the cancel branch ran once. *)
Definition Fires (b : TimeoutOrToken) (opts : Options) (st st' : State) : Prop :=
  Shape b opts st' /\
  state_of operation st' = state_of operation st /\
  fired_count 0 st' = S (fired_count 0 st) /\
  cancelled st' = cancelled st /\
  (timer_armed 0 st' = true -> timer_armed 0 st = true).

(** The bound can fire no more: the timer is not armed, the token has
    been cancelled. *)
Definition bound_spent (b : TimeoutOrToken) (st : State) : bool :=
  match b with
  | Timeout _ => negb (timer_armed 0 st)
  | Token t => existsb (Nat.eqb t) (cancelled st)
  end.

Definition Once (b : TimeoutOrToken) (st : State) : Prop :=
  fired_count 0 st = 0 \/ (fired_count 0 st = 1 /\ bound_spent b st = true).

(** The body of the cancel branch (lines 27-31 and 37-41). *)
Definition cancel_branch (b : TimeoutOrToken) (opts : Options) (st : State) : State :=
  match onDidCancel opts with
  | Some cb => run_onDidCancel 1 cb (emit (EBoundFired 0) st)
  | None =>
      rejectFn 1
        (VCancellationError operation
           (message_or (cancelMessage opts)
              (match b with Timeout _ => "TIMED OUT" | Token _ => "CANCELLED" end)))
        (emit (EBoundFired 0) st)
  end.

(** The states of the world in which [cancellable] was never called: the
    operation alone, with nobody subscribed. *)
Definition Bare (st : State) : Prop :=
  exists c0, heap st = [c0] /\ reactions c0 = [] /\ frames st = [] /\
             timers st = [] /\ listeners st = [] /\ microtasks st = [].

(** What an event makes of the operation's state. *)
Definition next (e : Event) (o : option Settlement) : option Settlement :=
  match e, o with
  | OperationSettles 0 s, None => Some s
  | _, _ => o
  end.

End PromisesMore.

(* ===================================================================== *)
(** * More of Hovers: the lookups and the round of detailsMessage *)
(* ===================================================================== *)

Module HoversMore.

Import Promises.
Import Hovers.

(** [provider.maybeConnected ?? (await provider.isConnected())] is true:
    the provider is known to be connected, or says so when asked. *)
Definition is_connected (env : Env) (p : RemoteProvider) : Prop :=
  maybeConnected p = Some true \/
  (maybeConnected p = None /\ env (IsConnected p) = Resolved true).

(** The same environment, but with a presence lookup that finds nothing. *)
Definition without_presence (env : Env) : Env :=
  fun c => match c return Settled (Response c) with
           | MaybeGetPresence _ => Resolved None
           | c' => env c'
           end.

Definition is_previous_diff_call (e : Event) : bool :=
  match e with
  | Issued (GetPreviousLineDiffUris _ _ _) => true
  | _ => false
  end.

(** A configuration with the enhanced autolinks and the pull requests
    switched off. *)
Definition lookups_off : Config := mkConfig true false false "${message}" Silent false.

Definition a_commit : GitCommit := mkCommit "/repo" "4f2a9c1" "fix #12" None false.

End HoversMore.

(* ===================================================================== *)
(** * Hovers.changesMessage *)
(* ===================================================================== *)

Module Changes.

Import Promises.

(** ** The collaborators' data *)

(** [GitUri], with its [isUncommitted] getter as a field. *)
Record GitUri : Type := mkUri {
  sha : option string;
  fsPath : string;
  uri_isUncommitted : bool
}.

(** An entry of [commit.lines]. *)
Record GitCommitLine : Type := mkLine {
  line : Z;
  originalLine : Z
}.

(** [GitBlameCommit.is(commit)] tells the two classes apart; only a blame
    commit has [lines]. *)
Inductive CommitKind : Type :=
| GitBlameCommit (lines : list GitCommitLine)
| GitLogCommit.

Record GitCommit : Type := mkCommit {
  kind : CommitKind;
  isUncommitted : bool;
  commit_sha : string;
  shortSha : string;
  previousSha : option string;
  previousShortSha : option string;
  repoPath : string;
  fileName : string;
  originalFileName : option string;
  commit_fsPath : string                   (* commit.uri.fsPath *)
}.

(** [GitDiffHunkLine]: [hunk.diff], [current?.line], [previous?.line] *)
Record GitDiffHunkLine : Type := mkHunkLine {
  hunk_diff : string;
  current_line : option string;
  previous_line : option string
}.

(** What [getPreviousLineDiffUris] resolves to besides [undefined]. *)
Record DiffUris : Type := mkDiffUris {
  current : GitUri;
  previous : option GitUri
}.

(** [Container.config.hovers.changesDiff] *)
Inductive ChangesDiff : Type := DiffLine | DiffHunk.

(** The argument of [DiffWithCommand.getMarkdownCommandArgs]: a commit and
    a line, or the two sides spelled out. *)
Inductive DiffWithArgs : Type :=
| ArgsOfCommit (commit : GitCommit) (line : Z)
| ArgsOfSides (lhs_sha lhs_uri rhs_sha rhs_uri repoPath : string) (line : Z).

(** ** Awaited calls *)

Inductive Call : Type :=
| GetDiffForLine (uri : GitUri) (editorLine : Z) (ref1 ref2 : option string)
    (originalFileName : option string)
| GetPreviousLineDiffUris (commit : GitCommit) (uri : GitUri) (editorLine : Z)
    (ref : option string).

Definition Response (c : Call) : Type :=
  match c with
  | GetDiffForLine _ _ _ _ _ => option GitDiffHunkLine
  | GetPreviousLineDiffUris _ _ _ _ => option DiffUris
  end.

(** The body of an async function without [try]: it returns, throws, or
    awaits a call and goes on with what the call resolved to; a rejected
    call is thrown at the await. *)
Inductive Async (R : Type) : Type :=
| Return (r : R)
| Throw (ex : Value)
| Await (c : Call) (k : Response c -> Async R).
Arguments Return {R} r.
Arguments Throw {R} ex.
Arguments Await {R} c k.

Fixpoint bind {A B : Type} (m : Async A) (f : A -> Async B) : Async B :=
  match m with
  | Return a => f a
  | Throw ex => Throw ex
  | Await c k => Await c (fun x => bind (k x) f)
  end.

Notation "x <- m ;; k" := (bind m (fun x => k))
  (at level 100, m at next level, right associativity).

Definition await (c : Call) : Async (Response c) := Await c Return.

Definition Env : Type := forall c : Call, Hovers.Settled (Response c).

(** Running a body: the calls issued, in order, and how the function's
    promise ends. *)
Fixpoint exec {R : Type} (env : Env) (m : Async R) : list Call * Hovers.Settled R :=
  match m with
  | Return r => ([], Hovers.Resolved r)
  | Throw ex => ([], Hovers.Threw ex)
  | Await c k =>
      match env c with
      | Hovers.Resolved x => let (t, r) := exec env (k x) in (c :: t, r)
      | Hovers.Threw ex => ([c], Hovers.Threw ex)
      end
  end.

Definition is_diff_call (c : Call) : bool :=
  match c with GetDiffForLine _ _ _ _ _ => true | _ => false end.

(** ** Characters a string literal cannot hold *)

Definition dquote : string :=
  String (Ascii.Ascii false true false false false true false false) EmptyString.

Definition newline : string :=
  String (Ascii.Ascii false true false true false false false false) EmptyString.

(** [sha || ''] *)
Definition or_empty (s : option string) : string :=
  match s with Some x => x | None => EmptyString end.

(** A [string | undefined] inside a template literal. *)
Definition shown (s : option string) : string :=
  match s with Some x => x | None => "undefined" end.

(** Reading [originalLine] of an undefined [commitLine] (line 60): a
    TypeError, whose message text is the engine's. *)
Definition undefined_commitLine : Value :=
  VError "TypeError: Cannot read property 'originalLine' of undefined".

(** What the function takes from the rest of the extension. *)
Class Collaborators : Type := mkCollaborators {
  (* Container.config.hovers.changesDiff *)
  changesDiff : ChangesDiff;
  (* GitService.isUncommittedStaged(ref), GitService.uncommittedStagedSha *)
  isUncommittedStaged : option string -> bool;
  uncommittedStagedSha : string;
  (* GitService.shortenSha(sha, { strings: { working } }) *)
  shortenSha : option string -> option string -> string;
  (* uri.documentUri(), as the command arguments hold it *)
  documentUri : GitUri -> string;
  (* DiffWithCommand.getMarkdownCommandArgs *)
  diffWithArgs : DiffWithArgs -> string;
  (* ShowQuickCommitDetailsCommand.getMarkdownCommandArgs *)
  showCommitArgs : string -> string;
  (* GlyphChars.Dash, GlyphChars.ArrowLeftRightLong *)
  Dash : string;
  ArrowLeftRightLong : string
}.

Section ChangesMessage.

Context {collaborators : Collaborators}.

(** [getDiffFromHunkLine(hunkLine)] (lines 182-190) *)
Definition getDiffFromHunkLine (hunkLine : GitDiffHunkLine) : string :=
  match changesDiff with
  | DiffHunk => "```diff" ++ newline ++ hunk_diff hunkLine ++ newline ++ "```"
  | DiffLine =>
      "```diff"
      ++ match previous_line hunkLine with
         | None => EmptyString
         | Some l => newline ++ "-" ++ l
         end
      ++ match current_line hunkLine with
         | None => EmptyString
         | Some l => newline ++ "+" ++ l
         end
      ++ newline ++ "```"
  end.

(** [commit.lines.find(l => l.line === line) || commit.lines[0]] *)
Definition commitLine (lines : list GitCommitLine) (n : Z) : option GitCommitLine :=
  match List.find (fun l => Z.eqb (line l) n) lines with
  | Some l => Some l
  | None => head lines
  end.

(** The [ref] of lines 41-48: undefined for an uncommitted commit whose
    document is not the staged one. *)
Definition blame_ref (commit : GitCommit) (documentRef : option string) : option string :=
  if isUncommitted commit
  then if isUncommittedStaged documentRef then documentRef else None
  else Some (commit_sha commit).

(** Lines 53-58 *)
Definition blame_fileName (commit : GitCommit) (uri : GitUri) : option string :=
  match originalFileName commit with
  | Some n => Some n
  | None =>
      if negb (String.eqb (fsPath uri) (commit_fsPath commit))
      then Some (fileName commit)
      else None
  end.

(** Lines 39-73: the line and the hunk line the rest of the function works
    with. *)
Definition locate (commit : GitCommit) (uri : GitUri) (editorLine : Z)
    (hunkLine : option GitDiffHunkLine) : Async (Z * option GitDiffHunkLine) :=
  let documentRef := sha uri in
  match kind commit with
  | GitBlameCommit lines =>
      let ref := blame_ref commit documentRef in
      let line := (editorLine + 1)%Z in
      match commitLine lines line with
      | None => Throw undefined_commitLine
      | Some commitLine =>
          let originalFileName := blame_fileName commit uri in
          let editorLine := (originalLine commitLine - 1)%Z in
          hunkLine <- await (GetDiffForLine uri editorLine ref None originalFileName) ;;
          match hunkLine, ref with
          | None, None =>
              hunkLine <- await (GetDiffForLine uri editorLine None
                                   (Some uncommittedStagedSha) originalFileName) ;;
              Return (editorLine, hunkLine)
          | _, _ => Return (editorLine, hunkLine)
          end
      end
  | GitLogCommit => Return (editorLine, hunkLine)
  end.

(** The link to one side of an uncommitted change (lines 101-125). *)
Definition side_link (u : GitUri) : string :=
  if match sha u with None => true | Some _ => false end || uri_isUncommitted u
  then "_" ++ shortenSha (sha u) (Some "Working Tree") ++ "_"
  else "[`" ++ shortenSha (Some (or_empty (sha u))) None ++ "`]("
       ++ showCommitArgs (or_empty (sha u))
       ++ " " ++ dquote ++ "Show Commit Details" ++ dquote ++ ")".

Definition commit_link (short : string) (sha : string) : string :=
  "[`" ++ short ++ "`](" ++ showCommitArgs sha
  ++ " " ++ dquote ++ "Show Commit Details" ++ dquote ++ ")".

Definition changes_link (args : DiffWithArgs) : string :=
  "[`Changes`](" ++ diffWithArgs args ++ " " ++ dquote ++ "Open Changes" ++ dquote ++ ")".

(** Lines 138-142 *)
Definition finish (message previous current diff : string) : Hovers.MarkdownString :=
  Hovers.mkMarkdown
    (message ++ " &nbsp; " ++ Dash ++ " &nbsp; " ++ previous
     ++ " &nbsp;" ++ ArrowLeftRightLong ++ "&nbsp; " ++ current
     ++ newline ++ diff)
    true.

(** [Hovers.changesMessage(commit, uri, editorLine, hunkLine?)]
    (lines 32-143) *)
Definition changesMessage (commit : GitCommit) (uri : GitUri) (editorLine : Z)
    (hunkLine : option GitDiffHunkLine) : Async (option Hovers.MarkdownString) :=
  let documentRef := sha uri in
  located <- locate commit uri editorLine hunkLine ;;
  let (editorLine, hunkLine) := located in
  match hunkLine, previousSha commit with
  | Some hunkLine, Some previous_sha =>
      let diff := getDiffFromHunkLine hunkLine in
      if isUncommitted commit then
        diffUris <- await (GetPreviousLineDiffUris commit uri editorLine documentRef) ;;
        match diffUris with
        | Some (mkDiffUris current (Some previous)) =>
            let message :=
              changes_link
                (ArgsOfSides (or_empty (sha previous)) (documentUri previous)
                   (or_empty (sha current)) (documentUri current)
                   (repoPath commit) editorLine) in
            Return (Some (finish message (side_link previous) (side_link current) diff))
        | _ => Return None
        end
      else
        let message := changes_link (ArgsOfCommit commit editorLine) in
        let previous := commit_link (shown (previousShortSha commit)) previous_sha in
        let current := commit_link (shortSha commit) (commit_sha commit) in
        Return (Some (finish message previous current diff))
  | _, _ => Return None
  end.

End ChangesMessage.

(** ** Examples *)

Definition never_staged (ref : option string) : bool := false.

Definition seven (sha : option string) (working : option string) : string :=
  match sha with
  | Some s => substring 0 7 s
  | None => or_empty working
  end.

Definition document_of (u : GitUri) : string := fsPath u.

Definition args_of_diff (a : DiffWithArgs) : string := "command:gitlens.diffWith".

Definition args_of_commit (sha : string) : string :=
  "command:gitlens.showQuickCommitDetails?" ++ sha.

Definition readme : GitUri := mkUri None "/repo/README.md" false.

Definition blamed (lines : list GitCommitLine) (previous : option string) : GitCommit :=
  mkCommit (GitBlameCommit lines) false "4f9d2a71" "4f9d2a7" previous previous
           "/repo" "README.md" None "/repo/README.md".

Definition working (lines : list GitCommitLine) : GitCommit :=
  mkCommit (GitBlameCommit lines) true "0000000000" "0000000" (Some "4f9d2a71") (Some "4f9d2a7")
           "/repo" "README.md" None "/repo/README.md".

Definition logged : GitCommit :=
  mkCommit GitLogCommit false "4f9d2a71" "4f9d2a7" (Some "1c0ffee2") (Some "1c0ffee")
           "/repo" "README.md" None "/repo/README.md".

Definition a_hunk : GitDiffHunkLine :=
  mkHunkLine "@@ -1 +1 @@" (Some "new") (Some "old").

(** Collaborators that show the changed line only. *)
Definition plain : Collaborators :=
  mkCollaborators DiffLine never_staged "0000000000000000000000000000000000000000:"
    seven document_of args_of_diff args_of_commit "-" "<->".

(** Nothing is found in the working tree, the staged diff has the line. *)
Definition staged_env : Env :=
  fun c => match c with
           | GetDiffForLine _ _ _ (Some _) _ => Hovers.Resolved (Some a_hunk)
           | GetDiffForLine _ _ _ None _ => Hovers.Resolved None
           | GetPreviousLineDiffUris _ _ _ _ =>
               Hovers.Resolved (Some (mkDiffUris readme (Some readme)))
           end.

(** Every diff is found, and the previous line has its uris. *)
Definition found_env : Env :=
  fun c => match c with
           | GetDiffForLine _ _ _ _ _ => Hovers.Resolved (Some a_hunk)
           | GetPreviousLineDiffUris _ _ _ _ =>
               Hovers.Resolved (Some (mkDiffUris readme (Some readme)))
           end.

End Changes.

(* ===================================================================== *)
(** * Facts about [Promises.cancellable] *)
(* ===================================================================== *)

Module PromisesFacts.

Import Promises.

(** ** Every promise settles at most once *)

Lemma Ext_refl r st : Ext r st st.
Proof.
  split; [exists []; now rewrite app_nil_r | left; split; reflexivity].
Qed.

Lemma Ext_trans r st1 st2 st3 : Ext r st1 st2 -> Ext r st2 st3 -> Ext r st1 st3.
Proof.
  intros [[t1 H1] O1] [[t2 H2] O2]. split.
  - exists (t1 ++ t2). rewrite H2, H1. now rewrite app_assoc.
  - unfold unchanged, just_settled in *.
    destruct O1 as [[A1 B1] | (A1 & B1 & C1)], O2 as [[A2 B2] | (A2 & B2 & C2)].
    + left. split; congruence.
    + right. repeat split; congruence.
    + right. repeat split; congruence.
    + contradiction.
Qed.

Lemma settlements_emit r e st :
  settlements r (emit e st) = settlements r st + (if is_settlement_of r e then 1 else 0).
Proof.
  unfold settlements, emit; simpl. rewrite List.filter_app, length_app. simpl.
  destruct (is_settlement_of r e); reflexivity.
Qed.

(** A step that leaves the heap's states alone and logs no settlement. *)
Lemma Ext_quiet r st st' tr :
  trace st' = trace st ++ tr ->
  forallb (fun e => negb (is_settlement_of r e)) tr = true ->
  state_of r st' = state_of r st ->
  Ext r st st'.
Proof.
  intros Ht Hq Hs. split; [eauto |]. left. split; [assumption |].
  unfold settlements. rewrite Ht, List.filter_app, length_app.
  replace (List.filter (is_settlement_of r) tr) with (@nil Effect); [simpl; lia |].
  clear Ht. induction tr as [| e tr IH]; [reflexivity |].
  simpl in *. apply andb_prop in Hq as [He Hq].
  destruct (is_settlement_of r e); [discriminate | auto].
Qed.

Lemma state_of_insert r w c c' st :
  heap st !! w = Some c -> state c' = state c ->
  state_of r (with_heap (<[w := c']> (heap st)) st) = state_of r st.
Proof.
  intros Hw Hs. unfold state_of, with_heap; cbn [heap].
  destruct (Nat.eq_dec w r) as [-> | Hne].
  - rewrite list_lookup_insert_eq by (eapply lookup_lt_Some; eauto).
    now rewrite Hw.
  - now rewrite list_lookup_insert_ne.
Qed.

Lemma Ext_settle r r' s st : Ext r st (settle r' s st).
Proof.
  unfold settle. destruct (heap st !! r') as [c |] eqn:Hc; [| apply Ext_refl].
  destruct (state c) eqn:Hs; [apply Ext_refl |].
  split; [exists [ESettled r' s]; reflexivity |].
  destruct (Nat.eq_dec r' r) as [-> | Hne].
  - right. unfold just_settled. rewrite settlements_emit. simpl.
    rewrite Nat.eqb_refl. unfold state_of, emit, with_microtasks, with_heap; cbn [heap].
    rewrite Hc, Hs, list_lookup_insert_eq by (eapply lookup_lt_Some; eauto).
    cbn [state]. repeat split; [discriminate | unfold settlements; cbn [trace]; lia].
  - left. unfold unchanged. rewrite settlements_emit. simpl.
    apply Nat.eqb_neq in Hne as Hb. rewrite Hb.
    unfold state_of, settlements, emit, with_microtasks, with_heap; cbn [heap trace].
    rewrite list_lookup_insert_ne by assumption. split; [reflexivity | lia].
Qed.

Lemma Ext_mark_resolved r w st : Ext r st (mark_resolved w st).
Proof.
  unfold mark_resolved. destruct (heap st !! w) as [c |] eqn:Hc; [| apply Ext_refl].
  apply Ext_quiet with (tr := []); [simpl; now rewrite app_nil_r | reflexivity |].
  now apply state_of_insert with (c := c).
Qed.

Lemma Ext_emit r e st : is_settlement_of r e = false -> Ext r st (emit e st).
Proof.
  intros He. apply Ext_quiet with (tr := [e]); [reflexivity | | reflexivity].
  simpl. now rewrite He.
Qed.

Lemma Ext_enqueue r j st : Ext r st (enqueue j st).
Proof. apply Ext_quiet with (tr := []); [simpl; now rewrite app_nil_r | |]; reflexivity. Qed.

Lemma Ext_resolveFn r w x st : Ext r st (resolveFn w x st).
Proof.
  unfold resolveFn.
  eapply Ext_trans; [apply (Ext_emit r (ECallResolve w x)); reflexivity |].
  destruct (is_resolved w _); [apply Ext_refl |].
  eapply Ext_trans; [apply Ext_mark_resolved |].
  destruct x as [v | r']; [apply Ext_settle |].
  destruct (Nat.eqb r' w); [apply Ext_settle | apply Ext_enqueue].
Qed.

Lemma Ext_rejectFn r w e st : Ext r st (rejectFn w e st).
Proof.
  unfold rejectFn.
  eapply Ext_trans; [apply (Ext_emit r (ECallReject w e)); reflexivity |].
  destruct (is_resolved w _); [apply Ext_refl |].
  eapply Ext_trans; [apply Ext_mark_resolved | apply Ext_settle].
Qed.

Lemma Ext_promise_then r p onF onR st : Ext r st (promise_then p onF onR st).
Proof.
  unfold promise_then. destruct (heap st !! p) as [c |] eqn:Hc; [| apply Ext_refl].
  destruct (state c) eqn:Hs; [apply Ext_enqueue |].
  apply Ext_quiet with (tr := []); [simpl; now rewrite app_nil_r | reflexivity |].
  apply state_of_insert with (c := c); [assumption | now rewrite Hs].
Qed.

Lemma Ext_clearTimeout r id st : Ext r st (clearTimeout id st).
Proof.
  unfold clearTimeout.
  destruct (timers st !! id);
    (apply Ext_quiet with (tr := [EClearTimeout id]); reflexivity).
Qed.

Lemma Ext_set_fulfilled r k st : Ext r st (set_fulfilled k st).
Proof.
  unfold set_fulfilled. destruct (frames st !! k); [| apply Ext_refl].
  apply Ext_quiet with (tr := []); [simpl; now rewrite app_nil_r | |]; reflexivity.
Qed.

Lemma Ext_fold {A} r (f : State -> A -> State) (l : list A) st :
  (forall s a, Ext r s (f s a)) -> Ext r st (fold_left f l st).
Proof.
  intros Hf. revert st. induction l as [| a l IH]; intros st; simpl.
  - apply Ext_refl.
  - eapply Ext_trans; [apply Hf | apply IH].
Qed.

Lemma Ext_run_onDidCancel r w cb st : Ext r st (run_onDidCancel w cb st).
Proof.
  apply Ext_fold. intros s [x | e]; [apply Ext_resolveFn | apply Ext_rejectFn].
Qed.

Lemma Ext_clear_timer r (t : option TimerId) st :
  Ext r st (match t with Some id => clearTimeout id st | None => st end).
Proof. destruct t; [apply Ext_clearTimeout | apply Ext_refl]. Qed.

Lemma Ext_call r c arg st : Ext r st (call c arg st).
Proof.
  destruct c as [k | k | k | k | w | w]; simpl;
    try apply Ext_settle;
    (destruct (frames st !! k) as [f |]; [| apply Ext_refl]).
  - eapply Ext_trans; [apply (Ext_emit r (EBoundFired k)); reflexivity |].
    destruct (onDidCancel (options f)); [apply Ext_run_onDidCancel | apply Ext_rejectFn].
  - destruct (fulfilled f); [apply Ext_refl |].
    eapply Ext_trans; [apply (Ext_emit r (EBoundFired k)); reflexivity |].
    destruct (onDidCancel (options f)); [apply Ext_run_onDidCancel | apply Ext_rejectFn].
  - eapply Ext_trans; [apply Ext_set_fulfilled |].
    eapply Ext_trans; [apply Ext_clear_timer | apply Ext_resolveFn].
  - eapply Ext_trans; [apply Ext_set_fulfilled |].
    eapply Ext_trans; [apply Ext_clear_timer | apply Ext_rejectFn].
Qed.

Lemma Ext_step r e st : Ext r st (step e st).
Proof.
  destruct e as [r' s | t | ms | id |]; simpl.
  - destruct (is_wrapper r' st); [apply Ext_refl |].
    eapply Ext_trans; [apply Ext_mark_resolved | apply Ext_settle].
  - destruct (existsb (Nat.eqb t) (cancelled st)); [apply Ext_refl |].
    eapply Ext_trans; [| apply Ext_fold; intros; apply Ext_call].
    apply Ext_quiet with (tr := []); [simpl; now rewrite app_nil_r | |]; reflexivity.
  - apply Ext_quiet with (tr := []); [simpl; now rewrite app_nil_r | |]; reflexivity.
  - destruct (microtasks st); [| apply Ext_refl].
    destruct (timers st !! id) as [t |]; [| apply Ext_refl].
    destruct (timer_ready id st); [| apply Ext_refl].
    eapply Ext_trans; [| apply Ext_call].
    apply Ext_quiet with (tr := []); [simpl; now rewrite app_nil_r | |]; reflexivity.
  - destruct (microtasks st) as [| j q]; [apply Ext_refl |].
    eapply Ext_trans; [| destruct j; simpl; [apply Ext_call | apply Ext_promise_then]].
    apply Ext_quiet with (tr := []); [simpl; now rewrite app_nil_r | |]; reflexivity.
Qed.

Lemma Ext_run r sched st : Ext r st (run sched st).
Proof. apply Ext_fold. intros; apply Ext_step. Qed.

Lemma counted_Ext r st st' : counted r st -> Ext r st st' -> counted r st'.
Proof.
  unfold counted. intros Hc [_ [[Hs Hn] | (Hs & Hs' & Hn)]].
  - now rewrite Hs, Hn.
  - rewrite Hn, Hc, Hs. destruct (state_of r st'); [reflexivity | contradiction].
Qed.

Lemma settled_Ext r st st' s :
  state_of r st = Some s -> Ext r st st' -> state_of r st' = Some s.
Proof.
  intros Hs [_ [[Hs' _] | (Hn & _)]]; congruence.
Qed.

Lemma bound_fired_Ext r k st st' :
  bound_fired k st = true -> Ext r st st' -> bound_fired k st' = true.
Proof.
  unfold bound_fired. intros Hb [[tr Ht] _].
  rewrite Ht, existsb_app, Hb. reflexivity.
Qed.

(** ** The states one call can reach *)

(** The call arms exactly one timer, or registers exactly one listener,
    and subscribes to the operation; nothing has settled yet. *)
Example call_arms_one_timer opts :
  let st := called (Timeout 250) opts None in
  trace st = [ESetTimeout 0 250] /\
  timers st = [mkTimer (TimerCallback 0) 250 true] /\
  listeners st = [] /\
  state_of (returned (Timeout 250) opts None) st = None.
Proof. repeat split. Qed.

Example call_registers_one_listener opts :
  let st := called (Token 5) opts None in
  trace st = [EListen 5] /\
  timers st = [] /\
  listeners st = [(5, TokenListener 0)] /\
  state_of (returned (Token 5) opts None) st = None.
Proof. repeat split. Qed.

Lemma inv_called b opts o : Inv b opts (first_phase o) false (called b opts o).
Proof.
  unfold called. destruct b, o as [[v | e] |]; split; reflexivity.
Qed.

Lemma fired_run_onDidCancel k w cb st :
  bound_fired k st = true -> bound_fired k (run_onDidCancel w cb st) = true.
Proof. intros H. eapply (bound_fired_Ext 0); [eassumption | apply Ext_run_onDidCancel]. Qed.

Lemma fired_emit k st : bound_fired k (emit (EBoundFired k) st) = true.
Proof.
  unfold bound_fired, emit; simpl. rewrite existsb_app. simpl.
  rewrite Nat.eqb_refl. now rewrite orb_true_r.
Qed.

Ltac split_ifs :=
  repeat match goal with
         | |- context [if ?x then _ else _] => destruct x eqn:?
         | |- context [match ?x with Some _ => _ | None => _ end] => destruct x eqn:?
         end.

Ltac inv_fields tr :=
  split; simpl; try reflexivity;
  unfold bound_fired in *; simpl in *;
  rewrite ?existsb_app; simpl;
  repeat match goal with H : existsb _ tr = _ |- _ => rewrite H end;
  simpl; rewrite ?orb_false_r, ?orb_true_r; try reflexivity; try assumption.

(** Try every phase that can be named from the context. *)
Ltac candidates tac :=
  first
    [ tac OpPending
    | match goal with
      | out : Settlement |- _ => first [ tac (OpQueued out) | tac (OpDone out) ]
      | v : Value |- _ =>
          first [ tac (OpQueued (Fulfilled v)) | tac (OpQueued (Rejected v))
                | tac (OpAdopt1 v) | tac (OpAdopt2 v)
                | tac (OpDone (Fulfilled v)) | tac (OpDone (Rejected v)) ]
      end ].

Ltac find_phase tr :=
  candidates ltac:(fun ph =>
    first [ solve [exists ph, false; inv_fields tr]
          | solve [exists ph, true; inv_fields tr] ]).

Ltac find_quiet_phase tr :=
  candidates ltac:(fun ph => solve [exists ph; inv_fields tr]).

Ltac find_safe_phase tr :=
  candidates ltac:(fun ph => solve [exists ph; split; [inv_fields tr | reflexivity]]).

(** A state whose trace shows the cancel branch cannot be unfired. *)
Ltac fired_contradiction :=
  match goal with
  | H : bound_fired 0 _ = false |- _ =>
      exfalso;
      first [ rewrite fired_run_onDidCancel in H;
              [ discriminate H
              | unfold bound_fired; simpl; rewrite ?existsb_app; simpl;
                now rewrite ?orb_true_r ]
            | unfold bound_fired in H; simpl in H;
              rewrite ?existsb_app in H; simpl in H;
              rewrite ?orb_true_r in H; discriminate H ]
  end.

(** With no [onDidCancel], the reachable states are closed under every
    event. *)
Lemma inv_step b opts e ph c st :
  onDidCancel opts = None ->
  Inv b opts ph c st -> exists ph' c', Inv b opts ph' c' (step e st).
Proof.
  intros Hd [Hh Hf Ht Hl Hq Hb Ha].
  destruct st as [h f t l cs q n tr]; simpl in *; subst h f t l q.
  destruct e as [r s | t' | ms' | id |].
  - destruct r as [| [| r]]; destruct ph as [| out | v | v | out], c, b;
      try discriminate Ha; simpl; rewrite ?Hd; simpl; split_ifs;
      try destruct s; simpl; find_phase tr.
  - destruct ph as [| out | v | v | out], c, b; try discriminate Ha;
      unfold step, token_listeners;
      repeat (simpl; rewrite ?Hd; split_ifs); find_phase tr.
  - destruct ph as [| out | v | v | out], c, b; try discriminate Ha;
      simpl; find_phase tr.
  - destruct id as [| id]; destruct ph as [| out | v | v | out], c, b;
      try discriminate Ha;
      repeat (simpl; rewrite ?Hd; split_ifs); find_phase tr.
  - destruct ph as [| [v | x] | v | v | out], c, b; try discriminate Ha;
      repeat (simpl; rewrite ?Hd; split_ifs); find_phase tr.
Qed.

(** Whatever the options, a step that does not run the cancel branch stays
    among the states with an untouched wrapper. *)
Lemma inv_step_quiet b opts e ph st :
  Inv b opts ph false st ->
  bound_fired 0 (step e st) = false ->
  exists ph', Inv b opts ph' false (step e st).
Proof.
  intros [Hh Hf Ht Hl Hq Hb Ha].
  destruct st as [h f t l cs q n tr]; simpl in *; subst h f t l q.
  destruct (onDidCancel opts) as [cb |] eqn:Hd;
  destruct e as [r s | t' | ms' | id |].
  all: try (destruct r as [| [| r]]); try (destruct id as [| id]).
  all: destruct ph as [| [v | x] | v | v | out], b.
  all: unfold step, token_listeners;
    repeat (simpl; rewrite ?Hd; split_ifs); try destruct s; simpl; intros Hq.
  all: first [ find_quiet_phase tr | fired_contradiction ].
Qed.

Lemma inv_step_safe b opts e ph st :
  Inv b opts ph false st -> safe b ph = true ->
  exists ph', Inv b opts ph' false (step e st) /\ safe b ph' = true.
Proof.
  intros [Hh Hf Ht Hl Hq Hb Ha] Hs.
  destruct st as [h f t l cs q n tr]; simpl in *; subst h f t l q.
  destruct e as [r s | t' | ms' | id |].
  all: try (destruct r as [| [| r]]); try (destruct id as [| id]).
  all: destruct ph as [| [v | x] | v | v | out], b; try discriminate Hs.
  all: unfold step, token_listeners;
    repeat (simpl; split_ifs); try destruct s; simpl.
  all: find_safe_phase tr.
Qed.

(** *** Runs *)

Lemma run_app s1 s2 st : run (s1 ++ s2) st = run s2 (run s1 st).
Proof. apply fold_left_app. Qed.

Lemma inv_run b opts sched ph c st :
  onDidCancel opts = None ->
  Inv b opts ph c st -> exists ph' c', Inv b opts ph' c' (run sched st).
Proof.
  intros Hd. revert ph c st.
  induction sched as [| e sched IH]; intros ph c st HI; simpl.
  - eauto.
  - destruct (inv_step b opts e ph c st Hd HI) as (ph1 & c1 & H1). eauto.
Qed.

Lemma inv_run_safe b opts sched ph st :
  Inv b opts ph false st -> safe b ph = true ->
  exists ph', Inv b opts ph' false (run sched st) /\ safe b ph' = true.
Proof.
  revert ph st.
  induction sched as [| e sched IH]; intros ph st HI Hs; simpl.
  - eauto.
  - destruct (inv_step_safe b opts e ph st HI Hs) as (ph1 & H1 & Hs1). eauto.
Qed.

Lemma inv_run_quiet b opts sched ph st :
  Inv b opts ph false st ->
  bound_fired 0 (run sched st) = false ->
  exists ph', Inv b opts ph' false (run sched st).
Proof.
  revert ph st.
  induction sched as [| e sched IH]; intros ph st HI Hq; simpl in *.
  - eauto.
  - destruct (bound_fired 0 (step e st)) eqn:Hb.
    + rewrite (bound_fired_Ext 0 0 (step e st)) in Hq;
        [discriminate | assumption | apply Ext_run].
    + destruct (inv_step_quiet b opts e ph st HI Hb) as (ph1 & H1). eauto.
Qed.

Lemma inv_state_O b opts ph c st :
  Inv b opts ph c st -> state_of operation st = state (cellO ph).
Proof. intros HI. unfold state_of. now rewrite (inv_heap _ _ _ _ _ HI). Qed.

Lemma inv_state_W b opts ph c st :
  Inv b opts ph c st -> state_of 1 st = state (cellW b opts ph c).
Proof. intros HI. unfold state_of. now rewrite (inv_heap _ _ _ _ _ HI). Qed.

Lemma returned_1 b opts o : returned b opts o = 1.
Proof. reflexivity. Qed.

Lemma counted_called b opts o : counted 1 (called b opts o).
Proof. destruct b, o as [[v | e] |]; reflexivity. Qed.

Lemma counted_run b opts o sched : counted 1 (run sched (called b opts o)).
Proof. eapply counted_Ext; [apply counted_called | apply Ext_run]. Qed.

Lemma fires_default b opts st :
  onDidCancel opts = None ->
  Inv b opts OpPending false st -> bound_ready b st = true ->
  Inv b opts OpPending true (step (firing b) st).
Proof.
  intros Hd [Hh Hf Ht Hl Hq Hb Ha] Hr.
  destruct st as [h f t l cs q n tr]; simpl in *; subst h f t l q.
  destruct b as [ms | t]; unfold firing, step, token_listeners, timer_ready;
    simpl in *; rewrite ?Hr, ?Hd, ?Nat.eqb_refl;
    [| apply negb_true_iff in Hr; rewrite Hr ];
    simpl; rewrite ?Hd; inv_fields tr.
Qed.

Lemma settled_when_drained b opts ph c st :
  Inv b opts ph c st ->
  state_of operation st <> None -> microtasks st = [] ->
  state_of 1 st <> None.
Proof.
  intros HI Ho Hq.
  rewrite (inv_state_O _ _ _ _ _ HI) in Ho.
  rewrite (inv_queue _ _ _ _ _ HI) in Hq.
  rewrite (inv_state_W _ _ _ _ _ HI).
  destruct ph as [| out | v | v | out], c; simpl in *;
    try discriminate Hq; congruence.
Qed.

(** The bound's event, with no [onDidCancel]: the cancel branch rejects
    the wrapper, or the then-callback has silenced it and the operation's
    outcome is on its way. *)
Lemma bound_event_settles b opts ph c st post :
  onDidCancel opts = None ->
  Inv b opts ph c st -> bound_ready b st = true ->
  microtasks (run post (step (firing b) st)) = [] ->
  state_of 1 (run post (step (firing b) st)) <> None.
Proof.
  intros Hd HI Hr Hq.
  assert (HE : forall r, Ext r st (run post (step (firing b) st)))
    by (intros r; eapply Ext_trans; [apply Ext_step | apply Ext_run]).
  destruct (inv_run b opts (firing b :: post) _ _ _ Hd HI) as (ph' & c' & HI').
  simpl in HI'.
  assert (Hkeep : forall s, state_of 1 st = Some s ->
                            state_of 1 (run post (step (firing b) st)) <> None).
  { intros s Hs. rewrite (settled_Ext _ _ _ _ Hs (HE 1)). discriminate. }
  pose proof (inv_state_W _ _ _ _ _ HI) as HW.
  pose proof (inv_state_O _ _ _ _ _ HI) as HO.
  destruct c; [apply (Hkeep _ HW) |].
  destruct ph as [| out | v | v | out].
  - pose proof (fires_default b opts st Hd HI Hr) as HI2.
    pose proof (inv_state_W _ _ _ _ _ HI2) as HW2. simpl in HW2.
    rewrite (settled_Ext _ _ _ _ HW2 (Ext_run 1 post _)). discriminate.
  - apply (settled_when_drained _ _ _ _ _ HI'); [| exact Hq].
    rewrite (settled_Ext _ _ _ _ HO (HE operation)). discriminate.
  - apply (settled_when_drained _ _ _ _ _ HI'); [| exact Hq].
    rewrite (settled_Ext _ _ _ _ HO (HE operation)). discriminate.
  - apply (settled_when_drained _ _ _ _ _ HI'); [| exact Hq].
    rewrite (settled_Ext _ _ _ _ HO (HE operation)). discriminate.
  - apply (Hkeep _ HW).
Qed.

(** C1 fails with [onDidCancel].  A timer of 250 ms fires while the
    operation is pending.  A callback that resolves with a fallback makes
    the wrapper fulfilled with a value that is neither the operation's
    outcome (it has none) nor a [CancellationError]; a callback that calls
    neither function leaves the wrapper pending although the bound has
    fired and every microtask has run: no settlement at all. *)
Lemma onDidCancel_decides_the_settlement :
  let b := Timeout 250 in
  let sched := [Elapse 250; TimerFires 0; Microtask] in
  (let opts := mkOptions None (Some [CbResolve (Plain (VStr "fallback"))]) in
   let st := run sched (called b opts None) in
   state_of operation st = None /\
   state_of (returned b opts None) st = Some (Fulfilled (VStr "fallback"))) /\
  (let opts := mkOptions None (Some []) in
   let st := run sched (called b opts None) in
   bound_fired 0 st = true /\ microtasks st = [] /\
   state_of (returned b opts None) st = None /\
   settlements (returned b opts None) st = 0).
Proof. repeat split. Qed.

(** C1, amended.  Whatever the operation does, whatever the bound and the
    options, and in whatever order the events come, the promise returned
    by [cancellable] settles at most once, and a settlement stays: no
    later event (a signal after the operation has settled, the operation
    settling after the bound has fired) changes it or adds a second one.
    With no [onDidCancel], what it settles to is the operation's value,
    the operation's failure, or the [CancellationError] holding the
    operation, and it does settle: once the operation has settled, and
    once the bound's event has come (the timer task after the delay, the
    cancellation of the token), it has settled exactly once as soon as
    the microtasks have run. *)
Theorem cancellable_settles_once b opts o sched :
  let w := returned b opts o in
  let st := run sched (called b opts o) in
  settlements w st <= 1 /\
  (settlements w st = 1 <-> state_of w st <> None) /\
  (forall post,
      state_of w st <> None ->
      state_of w (run post st) = state_of w st /\
      settlements w (run post st) = 1) /\
  (onDidCancel opts = None ->
   (forall v, state_of w st = Some (Fulfilled v) ->
              state_of operation st = Some (Fulfilled v)) /\
   (forall e, state_of w st = Some (Rejected e) ->
              state_of operation st = Some (Rejected e) \/ e = cancellation b opts) /\
   (state_of operation st <> None -> microtasks st = [] ->
    settlements w st = 1) /\
   (forall pre post,
       sched = pre ++ firing b :: post ->
       bound_ready b (run pre (called b opts o)) = true ->
       microtasks st = [] ->
       settlements w st = 1)).
Proof.
  intros w st. change w with 1.
  pose proof (counted_run b opts o sched) as Hc. fold st in Hc. unfold counted in Hc.
  assert (Hone : state_of 1 st <> None -> settlements 1 st = 1).
  { intros Hs. rewrite Hc. destruct (state_of 1 st); congruence. }
  split; [| split; [| split]].
  - rewrite Hc. destruct (state_of 1 st); lia.
  - rewrite Hc. destruct (state_of 1 st); split; congruence.
  - intros post Hs.
    destruct (state_of 1 st) as [s |] eqn:E; [| congruence].
    assert (E' : state_of 1 (run post st) = Some s)
      by (eapply settled_Ext; [exact E | apply Ext_run]).
    split; [exact E' |].
    pose proof (counted_run b opts o (sched ++ post)) as Hc2.
    rewrite run_app in Hc2. fold st in Hc2. unfold counted in Hc2.
    now rewrite E' in Hc2.
  - intros Hd.
    destruct (inv_run b opts sched _ _ _ Hd (inv_called b opts o)) as (ph & c & HI).
    fold st in HI.
    pose proof (inv_state_W _ _ _ _ _ HI) as HW.
    pose proof (inv_state_O _ _ _ _ _ HI) as HO.
    pose proof (inv_adopt _ _ _ _ _ HI) as Ha.
    split; [| split; [| split]].
    + intros v Hv. rewrite HW in Hv. rewrite HO.
      destruct ph as [| out | x | x | out], c; try discriminate Ha; simpl in *;
        congruence.
    + intros e He. rewrite HW in He. rewrite HO.
      destruct ph as [| out | x | x | out], c; try discriminate Ha; simpl in *;
        first [ left; congruence | right; congruence ].
    + intros Ho Hq. apply Hone. exact (settled_when_drained _ _ _ _ _ HI Ho Hq).
    + intros pre post Hs Hr Hq. apply Hone.
      unfold st in *. subst sched. rewrite run_app in *. simpl in *.
      destruct (inv_run b opts pre _ _ _ Hd (inv_called b opts o)) as (ph1 & c1 & HI1).
      exact (bound_event_settles b opts ph1 c1 _ post Hd HI1 Hr Hq).
Qed.

(** ** When the operation settles first *)

Lemma safe_operation_wins b opts ph st out post :
  Inv b opts ph false st -> safe b ph = true ->
  state_of operation st = Some out ->
  operation_wins b 1 out (run post st).
Proof.
  intros HI Hs Ho.
  destruct (inv_run_safe b opts post ph st HI Hs) as (ph' & HI' & Hs').
  pose proof (settled_Ext _ _ _ _ Ho (Ext_run operation post st)) as Ho'.
  rewrite (inv_state_O _ _ _ _ _ HI') in Ho'.
  unfold operation_wins, timer_armed, listener_attached.
  rewrite (inv_state_W _ _ _ _ _ HI'), (inv_fired _ _ _ _ _ HI'),
    (inv_queue _ _ _ _ _ HI'), (inv_timers _ _ _ _ _ HI'),
    (inv_listeners _ _ _ _ _ HI').
  destruct ph' as [| o' | v | v | o'], b; simpl in *;
    try discriminate; injection Ho' as <-;
    repeat split; auto; intros; discriminate.
Qed.

Lemma safe_settles b opts ph st out :
  Inv b opts ph false st -> safe b ph = true ->
  state_of operation st = Some out ->
  state_of 1 (run [Microtask; Microtask; Microtask] st) = Some out.
Proof.
  intros [Hh Hf Ht Hl Hq Hb Ha] Hs Ho.
  destruct st as [h f t l cs q n tr]; simpl in *; subst h f t l q.
  unfold state_of in Ho; simpl in Ho.
  destruct ph as [| [v | x] | v | v | o'], b; try discriminate Hs;
    simpl in Ho; injection Ho as <-; reflexivity.
Qed.

Lemma pending_unfired b opts pre :
  state_of operation (run pre (called b opts None)) = None ->
  bound_fired 0 (run pre (called b opts None)) = false ->
  Inv b opts OpPending false (run pre (called b opts None)).
Proof.
  intros Ho Hb.
  destruct (inv_run_quiet b opts pre _ _ (inv_called b opts None) Hb) as (ph & HI).
  rewrite (inv_state_O _ _ _ _ _ HI) in Ho.
  destruct ph; try discriminate Ho. exact HI.
Qed.

Lemma pending_settles b opts c st out :
  Inv b opts OpPending c st ->
  Inv b opts (OpQueued out) c (step (OperationSettles operation out) st).
Proof.
  intros [Hh Hf Ht Hl Hq Hb Ha].
  destruct st as [h f t l cs q n tr]; simpl in *; subst h f t l q.
  unfold step, is_wrapper; simpl.
  destruct c, b; simpl; inv_fields tr.
Qed.

Lemma queued_delivers b opts st out :
  Inv b opts (OpQueued out) false st ->
  Inv b opts (match out with
              | Fulfilled v => OpAdopt1 v
              | Rejected e => OpDone (Rejected e)
              end) false (step Microtask st).
Proof.
  intros [Hh Hf Ht Hl Hq Hb Ha].
  destruct st as [h f t l cs q n tr]; simpl in *; subst h f t l q.
  destruct out, b; simpl; inv_fields tr.
Qed.

Lemma ahead_safe b opts out st :
  Inv b opts (OpQueued out) false st ->
  exists ph, Inv b opts ph false (ahead b st) /\ safe b ph = true /\
             state_of operation (ahead b st) = Some out.
Proof.
  intros HI. destruct b as [ms | t]; unfold ahead.
  - exists (OpQueued out). split; [exact HI | split; [reflexivity |]].
    now rewrite (inv_state_O _ _ _ _ _ HI).
  - eexists. split; [apply queued_delivers, HI |]. split.
    + destruct out; reflexivity.
    + eapply settled_Ext; [| apply (Ext_step operation Microtask)].
      now rewrite (inv_state_O _ _ _ _ _ HI).
Qed.

(** C2 fails for a token.  The operation is fulfilled with 1 while the
    token is silent and all microtasks run: the wrapper is fulfilled with
    1, but the listener of line 34 is still registered with the token. *)
Lemma operation_first_listener_remains :
  let b := Token 0 in
  let opts := mkOptions None None in
  let st := run [OperationSettles operation (Fulfilled (VNum 1));
                 Microtask; Microtask; Microtask] (called b opts None) in
  state_of (returned b opts None) st = Some (Fulfilled (VNum 1)) /\
  bound_fired 0 st = false /\
  listener_attached 0 st = true /\
  ~ settled_and_disarmed (returned b opts None) (Fulfilled (VNum 1)) st.
Proof.
  repeat split; try reflexivity. intros [_ H]. discriminate H.
Qed.

(** The [fulfilled] flag is set by the then-callback, a microtask later
    than the settlement itself: a token cancelled in between still rejects
    the wrapper, although the operation had settled first. *)
Example signal_between_settlement_and_callback :
  let b := Token 0 in
  let opts := mkOptions None None in
  let st := run [OperationSettles operation (Fulfilled (VNum 1));
                 TokenCancelled 0; Microtask] (called b opts None) in
  state_of operation st = Some (Fulfilled (VNum 1)) /\
  state_of (returned b opts None) st
  = Some (Rejected (VCancellationError operation "CANCELLED")) /\
  settlements (returned b opts None) st = 1.
Proof. repeat split. Qed.

(** C2, amended.  Let the operation settle before the bound has fired,
    at the call or after it.  With a timer, and with a token once the
    then-callback has run, every continuation leaves the cancel branch
    unrun and the wrapper pending or settled with the operation's value or
    failure itself; when the microtasks have run it is settled so, and the
    timer is cleared.  A token keeps its listener: it is not detached, the
    [fulfilled] flag silences it.  Three microtasks are enough to settle. *)
Theorem cancellable_operation_first b opts out post :
  (forall pre,
      let w := returned b opts None in
      let st1 := run pre (called b opts None) in
      state_of operation st1 = None -> bound_fired 0 st1 = false ->
      let st2 := ahead b (step (OperationSettles operation out) st1) in
      operation_wins b w out (run post st2) /\
      state_of w (run [Microtask; Microtask; Microtask] st2) = Some out) /\
  (let w := returned b opts (Some out) in
   let st2 := ahead b (called b opts (Some out)) in
   operation_wins b w out (run post st2) /\
   state_of w (run [Microtask; Microtask; Microtask] st2) = Some out).
Proof.
  split.
  - intros pre w st1 Ho Hb st2. change w with 1.
    pose proof (pending_settles _ _ _ _ out (pending_unfired b opts pre Ho Hb)) as HI.
    destruct (ahead_safe _ _ _ _ HI) as (ph & HI2 & Hs & Ho2).
    split; [eapply safe_operation_wins | eapply safe_settles]; eassumption.
  - intros w st2. change w with 1.
    destruct (ahead_safe _ _ _ _ (inv_called b opts (Some out))) as (ph & HI2 & Hs & Ho2).
    split; [eapply safe_operation_wins | eapply safe_settles]; eassumption.
Qed.

Lemma cancellable_operation_first_witness :
  let b := Timeout 250 in
  let opts := mkOptions None None in
  let out := Fulfilled (VStr "pr") in
  let st1 := run [Elapse 100] (called b opts None) in
  let st2 := ahead b (step (OperationSettles operation out) st1) in
  operation_wins b (returned b opts None) out
    (run [Microtask; Elapse 300; TimerFires 0; Microtask; Microtask] st2) /\
  state_of (returned b opts None) (run [Microtask; Microtask; Microtask] st2) = Some out.
Proof.
  intros b opts out st1 st2.
  assert (Ho : state_of operation st1 = None) by reflexivity.
  assert (Hb : bound_fired 0 st1 = false) by reflexivity.
  exact (proj1 (cancellable_operation_first b opts out
                  [Microtask; Elapse 300; TimerFires 0; Microtask; Microtask])
           [Elapse 100] Ho Hb).
Defined.

(** ** When the bound fires first *)

Lemma fires_callback b opts cb st :
  onDidCancel opts = Some cb ->
  Inv b opts OpPending false st -> bound_ready b st = true ->
  step (firing b) st = run_onDidCancel 1 cb (emit (EBoundFired 0) (spent b st)).
Proof.
  intros Hd [Hh Hf Ht Hl Hq Hb Ha] Hr.
  destruct st as [h f t l cs q n tr]; simpl in *; subst h f t l q.
  destruct b as [ms | t]; unfold firing, step, token_listeners, timer_ready;
    simpl in *; rewrite ?Hr, ?Hd, ?Nat.eqb_refl;
    [| apply negb_true_iff in Hr; rewrite Hr ];
    simpl; rewrite ?Hd; reflexivity.
Qed.

Lemma resolved_emit w e st : is_resolved w (emit e st) = is_resolved w st.
Proof. reflexivity. Qed.

Lemma resolved_run_onDidCancel w cb st :
  is_resolved w st = true ->
  state_of w (run_onDidCancel w cb st) = state_of w st.
Proof.
  unfold run_onDidCancel. revert st.
  induction cb as [| a cb IH]; intros st Hr; simpl; [reflexivity |].
  assert (Hs : run_action w a st = emit (match a with
                                          | CbResolve x => ECallResolve w x
                                          | CbReject e => ECallReject w e
                                          end) st).
  { destruct a; simpl; unfold resolveFn, rejectFn;
      now rewrite resolved_emit, Hr. }
  rewrite Hs, IH; [reflexivity | now rewrite resolved_emit].
Qed.

Lemma run_onDidCancel_cons w a cb st :
  run_onDidCancel w (a :: cb) st = run_onDidCancel w cb (run_action w a st).
Proof. reflexivity. Qed.

Lemma decided_spec b opts cb st :
  Inv b opts OpPending false st ->
  state_of 1 (run_onDidCancel 1 cb (emit (EBoundFired 0) (spent b st))) = decided 1 cb.
Proof.
  intros [Hh Hf Ht Hl Hq Hb Ha].
  destruct st as [h f t l cs q n tr]; simpl in *; subst h f t l q.
  destruct cb as [| a cb]; [destruct b; reflexivity |].
  rewrite run_onDidCancel_cons.
  assert (Hsettled : forall s st1,
             state_of 1 st1 = Some s ->
             state_of 1 (run_onDidCancel 1 cb st1) = Some s).
  { intros s st1 H. eapply settled_Ext; [exact H | apply Ext_run_onDidCancel]. }
  destruct a as [x | r].
  - destruct x as [v | r]; [destruct b; apply Hsettled; reflexivity |].
    destruct r as [| [| r]]; destruct b;
      first [ apply Hsettled; reflexivity
            | rewrite resolved_run_onDidCancel; reflexivity ].
  - destruct b; apply Hsettled; reflexivity.
Qed.

(** C3 fails for an empty message.  With [cancelMessage: ''] and a timer
    of 10 ms that fires while the operation is pending, the reason text is
    'TIMED OUT', not the empty text the caller supplied. *)
Lemma empty_cancelMessage_is_replaced :
  let b := Timeout 10 in
  let opts := mkOptions (Some "") None in
  let w := returned b opts None in
  let st := run [Elapse 10; TimerFires 0] (called b opts None) in
  state_of w st
  = Some (Rejected (VCancellationError operation "TIMED OUT")) /\
  state_of w st
  <> Some (Rejected (VCancellationError operation
                       (supplied_or (cancelMessage opts) "TIMED OUT"))).
Proof.
  split; [reflexivity |]. intros H. discriminate H.
Qed.

(** C3, amended.  Let the bound fire while the operation is pending.  With
    no [onDidCancel] the wrapper is rejected with a [CancellationError]
    whose [promise] is the operation itself and whose message is
    [cancelMessage] when that is a non-empty text, and otherwise
    'TIMED OUT' for a timer and 'CANCELLED' for a token; the operation is
    untouched, so it still takes its own outcome later, and the wrapper
    keeps its rejection.  With [onDidCancel] the step is exactly the
    callback run on the wrapper's resolve and reject, and the wrapper is
    what the callback's first call decides. *)
Theorem cancellable_bound_first b opts pre :
  let w := returned b opts None in
  let st1 := run pre (called b opts None) in
  state_of operation st1 = None -> bound_fired 0 st1 = false ->
  bound_ready b st1 = true ->
  let st2 := step (firing b) st1 in
  (onDidCancel opts = None ->
   state_of w st2
   = Some (Rejected (VCancellationError operation
                       (message_or (cancelMessage opts) (default_message b)))) /\
   forall out post,
     let st := run post (step (OperationSettles operation out) st2) in
     state_of operation st = Some out /\ state_of w st = state_of w st2) /\
  (forall cb,
      onDidCancel opts = Some cb ->
      st2 = run_onDidCancel w cb (emit (EBoundFired 0) (spent b st1)) /\
      state_of w st2 = decided w cb).
Proof.
  intros w st1 Ho Hb Hr st2. change w with 1.
  pose proof (pending_unfired b opts pre Ho Hb) as HI. fold st1 in HI.
  split.
  - intros Hd.
    pose proof (fires_default b opts st1 Hd HI Hr) as HI2. fold st2 in HI2.
    pose proof (inv_state_W _ _ _ _ _ HI2) as Hw. simpl in Hw.
    split; [exact Hw |].
    intros out post st.
    pose proof (pending_settles _ _ _ _ out HI2) as HI3.
    split.
    + eapply settled_Ext; [| apply Ext_run].
      now rewrite (inv_state_O _ _ _ _ _ HI3).
    + rewrite Hw. eapply settled_Ext; [exact Hw |].
      eapply Ext_trans; [apply Ext_step | apply Ext_run].
  - intros cb Hd. unfold st2.
    rewrite (fires_callback b opts cb st1 Hd HI Hr).
    split; [reflexivity | apply (decided_spec b opts cb st1 HI)].
Qed.

Lemma cancellable_bound_first_witness :
  let b := Token 3 in
  let opts := mkOptions (Some "hover closed") None in
  let w := returned b opts None in
  let st1 := run [Elapse 40] (called b opts None) in
  let st2 := step (firing b) st1 in
  state_of w st2
  = Some (Rejected (VCancellationError operation
                      (message_or (cancelMessage opts) (default_message b)))) /\
  forall out post,
    let st := run post (step (OperationSettles operation out) st2) in
    state_of operation st = Some out /\ state_of w st = state_of w st2.
Proof.
  intros b opts w st1 st2.
  assert (Ho : state_of operation st1 = None) by reflexivity.
  assert (Hb : bound_fired 0 st1 = false) by reflexivity.
  assert (Hr : bound_ready b st1 = true) by reflexivity.
  assert (Hd : onDidCancel opts = None) by reflexivity.
  exact (proj1 (cancellable_bound_first b opts [Elapse 40] Ho Hb Hr) Hd).
Defined.

(** ** A timeout of zero *)

(** C8 fails when the operation, pending at the call, settles before the
    timer task starts: the wrapper is fulfilled with the operation's 1 and
    stays so; no [CancellationError] is ever produced. *)
Lemma zero_timeout_operation_settles_first :
  let b := Timeout 0 in
  let opts := mkOptions None None in
  let w := returned b opts None in
  let st := run [OperationSettles operation (Fulfilled (VNum 1));
                 Microtask; Microtask; Microtask; TimerFires 0]
              (called b opts None) in
  state_of operation (init None) = None /\
  state_of w st = Some (Fulfilled (VNum 1)) /\
  bound_fired 0 st = false /\
  forall post, ~ settles_cancelled w (run post st).
Proof.
  intros b opts w st.
  assert (Hw : state_of w st = Some (Fulfilled (VNum 1))) by reflexivity.
  repeat split; try reflexivity.
  intros post (p & m & H).
  rewrite (settled_Ext _ _ _ _ Hw (Ext_run w post st)) in H. discriminate H.
Qed.

(** C8, amended.  With a timeout of 0: an operation already settled at the
    call always wins, in every order of events, and three microtasks
    settle the wrapper with its value or failure.  An operation pending at
    the call is in a race: if the timer task runs while it is pending
    (and there is no [onDidCancel]) the wrapper is rejected with the
    [CancellationError]; if it settles first, it wins. *)
Theorem cancellable_zero_timeout opts :
  let b := Timeout 0 in
  (forall out post,
      let w := returned b opts (Some out) in
      operation_wins b w out (run post (called b opts (Some out))) /\
      state_of w (run [Microtask; Microtask; Microtask] (called b opts (Some out)))
      = Some out) /\
  (forall pre,
      let w := returned b opts None in
      let st1 := run pre (called b opts None) in
      state_of operation st1 = None -> bound_fired 0 st1 = false ->
      (onDidCancel opts = None ->
       state_of w (step (TimerFires 0) st1) = Some (Rejected (cancellation b opts))) /\
      (forall out post,
          operation_wins b w out
            (run post (step (OperationSettles operation out) st1)))).
Proof.
  intros b. split.
  - intros out post w. change w with 1.
    pose proof (inv_called b opts (Some out)) as HI.
    assert (Ho : state_of operation (called b opts (Some out)) = Some out)
      by now rewrite (inv_state_O _ _ _ _ _ HI).
    split; [eapply safe_operation_wins | eapply safe_settles];
      try exact HI; try exact Ho; reflexivity.
  - intros pre w st1 Ho Hb. change w with 1.
    pose proof (pending_unfired b opts pre Ho Hb) as HI. fold st1 in HI.
    split.
    + intros Hd.
      pose proof (fires_default b opts st1 Hd HI eq_refl) as HI2.
      exact (inv_state_W _ _ _ _ _ HI2).
    + intros out post.
      pose proof (pending_settles _ _ _ _ out HI) as HI2.
      eapply safe_operation_wins; [exact HI2 | reflexivity |].
      now rewrite (inv_state_O _ _ _ _ _ HI2).
Qed.

Lemma cancellable_zero_timeout_witness :
  let b := Timeout 0 in
  let opts := mkOptions None None in
  let w := returned b opts None in
  let st1 := run [Elapse 1] (called b opts None) in
  state_of w (step (TimerFires 0) st1) = Some (Rejected (cancellation b opts)).
Proof.
  intros b opts w st1.
  assert (Ho : state_of operation st1 = None) by reflexivity.
  assert (Hb : bound_fired 0 st1 = false) by reflexivity.
  assert (Hd : onDidCancel opts = None) by reflexivity.
  exact (proj1 (proj2 (cancellable_zero_timeout opts) [Elapse 1] Ho Hb) Hd).
Defined.

Lemma cancellable_settles_once_witness :
  let b := Timeout 250 in
  let opts := mkOptions None None in
  let sched := [Elapse 250; TimerFires 0] in
  settlements (returned b opts None) (run sched (called b opts None)) = 1.
Proof.
  intros b opts sched.
  assert (Hd : onDidCancel opts = None) by reflexivity.
  assert (Hs : sched = [Elapse 250] ++ firing b :: []) by reflexivity.
  assert (Hr : bound_ready b (run [Elapse 250] (called b opts None)) = true)
    by reflexivity.
  assert (Hq : microtasks (run sched (called b opts None)) = []) by reflexivity.
  exact (proj2 (proj2 (proj2 (proj2 (proj2 (proj2
                 (cancellable_settles_once b opts None sched))) Hd)))
           [Elapse 250] [] Hs Hr Hq).
Defined.

End PromisesFacts.

(* ===================================================================== *)
(** * Facts about the lookups of [Hovers] *)
(* ===================================================================== *)

Module HoversFacts.

Import Promises.
Import Hovers.

(** ** Gates *)

(** Case analysis on what a body branches on, innermost tests first. *)
Ltac branches :=
  repeat (simpl in *;
          match goal with
          | |- context [match ?x with _ => _ end] =>
              lazymatch x with
              | context [exec] => fail
              | _ => destruct x eqn:?
              end
          end);
  simpl in *.

Lemma autolinks_without_remote config has filterMap env message remotes :
  List.find is_default_with_provider remotes = None ->
  let (t, r) := exec env (getAutoLinkedIssues config has filterMap message remotes) in
  r = Resolved None /\ calls t = [].
Proof.
  intros H. unfold getAutoLinkedIssues. rewrite H. simpl.
  destruct (_ || _); simpl; split; reflexivity.
Qed.

Lemma pullRequest_without_api config has env ref remotes :
  remote_hasApi (List.find is_default_with_provider remotes) = false ->
  let (t, r) := exec env (getPullRequestForCommit config has ref remotes) in
  r = Resolved None /\ calls t = [].
Proof.
  intros H. unfold getPullRequestForCommit. rewrite H. simpl.
  destruct (_ || _); simpl; split; reflexivity.
Qed.

(** C6.  Each lookup is gated before anything is issued.
    [getAutoLinkedIssues] resolves to undefined with no call issued when
    autolinks are disabled (either flag), when the template has no
    [message] token, or when no default remote with a provider exists;
    [getPullRequestForCommit] does so when pull requests are disabled,
    when the template has none of the pull-request tokens, or when there
    is no default remote whose provider has an API. *)
Theorem lookups_are_gated config has filterMap env :
  (forall message remotes,
      autolinks_enabled config = false \/
      autolinks_enhanced config = false \/
      has (detailsMarkdownFormat config) ["message"] = false \/
      List.find is_default_with_provider remotes = None ->
      let (t, r) := exec env (getAutoLinkedIssues config has filterMap message remotes) in
      r = Resolved None /\ calls t = []) /\
  (forall ref remotes,
      pullRequests_enabled config = false \/
      has (detailsMarkdownFormat config) pullRequestTokens = false \/
      remote_hasApi (List.find is_default_with_provider remotes) = false ->
      let (t, r) := exec env (getPullRequestForCommit config has ref remotes) in
      r = Resolved None /\ calls t = []).
Proof.
  split.
  - intros message remotes [H | [H | [H | H]]];
      [| | | now apply autolinks_without_remote].
    all: unfold getAutoLinkedIssues; rewrite H, ?orb_true_r; simpl;
      split; reflexivity.
  - intros ref remotes [H | [H | H]];
      [| | now apply pullRequest_without_api].
    all: unfold getPullRequestForCommit; rewrite H, ?orb_true_r; simpl;
      split; reflexivity.
Qed.

Lemma lookups_are_gated_witness :
  let (t, r) := exec quiet_env
                  (getPullRequestForCommit all_on has_everything "4f2a9c1"
                     [github false None]) in
  r = Resolved None /\ calls t = [].
Proof.
  apply (proj2 (lookups_are_gated all_on has_everything keep_mapped quiet_env) "4f2a9c1"
           [github false None]).
  right. right. reflexivity.
Defined.

(** C7 fails for a provider without the capability.  With everything
    enabled and a default remote whose provider has no API, the lookup
    returns undefined, not the remote. *)
Lemma remote_without_api_is_not_remembered :
  let remote := github false None in
  let run := exec quiet_env
               (getPullRequestForCommit all_on has_everything "4f2a9c1" [remote]) in
  snd run = Resolved None /\ ~ remembers_remote remote run.
Proof.
  split; [reflexivity |]. intros [H _]. discriminate H.
Qed.

(** C7, amended.  When the default remote's provider has an API but is
    not connected (by [maybeConnected], or by [isConnected()] when that is
    undefined), the lookup returns the remote itself and issues no
    pull-request call.  When the provider has no API the lookup returns
    undefined, as when there is no remote at all. *)
Theorem disconnected_remote_is_remembered config has env ref remotes remote p :
  pullRequests_enabled config = true ->
  has (detailsMarkdownFormat config) pullRequestTokens = true ->
  List.find is_default_with_provider remotes = Some remote ->
  provider remote = Some p ->
  let run := exec env (getPullRequestForCommit config has ref remotes) in
  (hasApi p = true ->
   maybeConnected p = Some false \/
   (maybeConnected p = None /\ env (IsConnected p) = Resolved false) ->
   remembers_remote remote run) /\
  (hasApi p = false -> snd run = Resolved None /\ calls (fst run) = []).
Proof.
  intros He Hh Hf Hp run. subst run. unfold getPullRequestForCommit, remembers_remote.
  rewrite He, Hh, Hf. simpl. rewrite Hp. split.
  - intros Ha Hc. rewrite Ha. simpl.
    destruct Hc as [Hc | [Hc Hi]]; rewrite Hc; simpl.
    + split; [reflexivity |]. intros r' p' t' [H | [H | []]]; discriminate H.
    + simpl in Hi. rewrite Hi. simpl.
      split; [reflexivity |].
      intros r' p' t' [H | [H | [H | []]]]; discriminate H.
  - intros Ha. rewrite Ha. simpl. split; reflexivity.
Qed.

Lemma disconnected_remote_is_remembered_witness :
  let remote := github true None in
  remembers_remote remote
    (exec quiet_env (getPullRequestForCommit all_on has_everything "4f2a9c1" [remote])).
Proof.
  intros remote.
  refine (proj1 (disconnected_remote_is_remembered all_on has_everything quiet_env
                   "4f2a9c1" [remote] remote (mkProvider "GitHub" true None)
                   eq_refl eq_refl eq_refl eq_refl) eq_refl _).
  right. split; reflexivity.
Defined.

(** C10.  Both lookups read the list of remotes only through the first
    remote that is default and has a provider: a list behaves like that
    remote alone, whatever else it holds, and a list without such a remote
    gives undefined with no call issued. *)
Theorem lookups_use_first_default_remote config has filterMap env message ref remotes :
  (forall before remote after,
      remotes = before ++ remote :: after ->
      forallb (fun r => negb (is_default_with_provider r)) before = true ->
      is_default_with_provider remote = true ->
      exec env (getAutoLinkedIssues config has filterMap message remotes)
      = exec env (getAutoLinkedIssues config has filterMap message [remote]) /\
      exec env (getPullRequestForCommit config has ref remotes)
      = exec env (getPullRequestForCommit config has ref [remote])) /\
  (forallb (fun r => negb (is_default_with_provider r)) remotes = true ->
   (let (t, r) := exec env (getAutoLinkedIssues config has filterMap message remotes) in
    r = Resolved None /\ calls t = []) /\
   (let (t, r) := exec env (getPullRequestForCommit config has ref remotes) in
    r = Resolved None /\ calls t = [])).
Proof.
  assert (Hnone : forall l,
             forallb (fun r => negb (is_default_with_provider r)) l = true ->
             List.find is_default_with_provider l = None).
  { induction l as [| r l IH]; simpl; [reflexivity |].
    intros H. apply andb_prop in H as [Hr Hl].
    apply negb_true_iff in Hr. rewrite Hr. auto. }
  assert (Hfirst : forall before remote after,
             forallb (fun r => negb (is_default_with_provider r)) before = true ->
             is_default_with_provider remote = true ->
             List.find is_default_with_provider (before ++ remote :: after) = Some remote).
  { induction before as [| r l IH]; simpl; intros remote after H Hr.
    - now rewrite Hr.
    - apply andb_prop in H as [Hx Hl]. apply negb_true_iff in Hx.
      rewrite Hx. auto. }
  split.
  - intros before remote after -> Hb Hr.
    unfold getAutoLinkedIssues, getPullRequestForCommit.
    rewrite (Hfirst _ _ after Hb Hr). simpl. rewrite Hr. split; reflexivity.
  - intros Hb. pose proof (Hnone _ Hb) as Hf. split.
    + now apply autolinks_without_remote.
    + apply pullRequest_without_api. now rewrite Hf.
Qed.

Lemma lookups_use_first_default_remote_witness :
  let remotes := [mkRemote "upstream" false (Some (mkProvider "GitLab" true (Some true)));
                  mkRemote "backup" true None;
                  github true (Some false);
                  mkRemote "fork" true (Some (mkProvider "GitHub" true (Some true)))] in
  exec quiet_env (getPullRequestForCommit all_on has_everything "4f2a9c1" remotes)
  = exec quiet_env (getPullRequestForCommit all_on has_everything "4f2a9c1"
                      [github true (Some false)]).
Proof.
  intros remotes.
  exact (proj2 (proj1 (lookups_use_first_default_remote all_on has_everything keep_mapped quiet_env
                         "fix #12" "4f2a9c1" remotes)
                  [mkRemote "upstream" false (Some (mkProvider "GitLab" true (Some true)));
                   mkRemote "backup" true None]
                  (github true (Some false))
                  [mkRemote "fork" true (Some (mkProvider "GitHub" true (Some true)))]
                  eq_refl eq_refl eq_refl)).
Defined.

(** ** Outcomes of the issued calls *)

Ltac in_trace :=
  repeat match goal with
         | H : In _ _ |- _ => simpl in H
         | H : _ \/ _ |- _ => destruct H
         | H : False |- _ => destruct H
         | H : Issued _ = Issued _ |- _ => first [discriminate H | inversion H; clear H]
         | H : Logged _ = Issued _ |- _ => discriminate H
         end.

Ltac settle_by_env :=
  subst;
  repeat match goal with
         | H : ?e ?c = _, H' : ?e ?c = _ |- _ => rewrite H in H'
         end;
  try discriminate;
  repeat match goal with
         | H : Resolved _ = Resolved _ |- _ => injection H as H; subst
         | H : Threw _ = Threw _ |- _ => injection H as H; subst
         | H : Some _ = Some _ |- _ => injection H as H; subst
         end;
  try congruence.

(** C4.  A timed-out lookup is handed on as it is.  When the pull-request
    call is issued and rejects with a [CancellationError],
    [getPullRequestForCommit] resolves to that very error; when the
    issue-links call is issued and resolves to a map,
    [getAutoLinkedIssues] resolves to that very map, so every
    [CancellationError] in it is still there with its promise.  In both
    cases the call was issued once and nothing else was queried: no
    retry, no polling. *)
Theorem timed_out_lookup_is_surfaced config has filterMap env :
  (forall ref remotes p ex,
      In (Issued (GitGetPullRequestForCommit ref p 250))
         (fst (exec env (getPullRequestForCommit config has ref remotes))) ->
      env (GitGetPullRequestForCommit ref p 250) = Threw ex ->
      is_CancellationError ex = true ->
      snd (exec env (getPullRequestForCommit config has ref remotes))
      = Resolved (Some (ACancellationError ex)) /\
      lookup_calls (fst (exec env (getPullRequestForCommit config has ref remotes)))
      = [Issued (GitGetPullRequestForCommit ref p 250)]) /\
  (forall message remotes remote issues,
      In (Issued (GetIssueLinks message remote 250))
         (fst (exec env (getAutoLinkedIssues config has filterMap message remotes))) ->
      env (GetIssueLinks message remote 250) = Resolved (Some issues) ->
      snd (exec env (getAutoLinkedIssues config has filterMap message remotes))
      = Resolved (Some issues) /\
      lookup_calls (fst (exec env (getAutoLinkedIssues config has filterMap message remotes)))
      = [Issued (GetIssueLinks message remote 250)] /\
      forall key promise text,
        In (key, ACancellation promise text) issues ->
        exists result,
          snd (exec env (getAutoLinkedIssues config has filterMap message remotes))
          = Resolved (Some result) /\
          In (key, ACancellation promise text) result).
Proof.
  split.
  - intros ref remotes p ex. unfold getPullRequestForCommit.
    branches; intros Hin He Hc; in_trace; settle_by_env;
      split; reflexivity.
  - intros message remotes remote issues Hin He.
    assert (Hr : snd (exec env (getAutoLinkedIssues config has filterMap message remotes))
                 = Resolved (Some issues) /\
                 lookup_calls
                   (fst (exec env (getAutoLinkedIssues config has filterMap message remotes)))
                 = [Issued (GetIssueLinks message remote 250)]).
    { revert Hin He. unfold getAutoLinkedIssues.
      branches; intros Hin He; in_trace; settle_by_env; split; reflexivity. }
    destruct Hr as [Hr Hc].
    split; [exact Hr | split; [exact Hc |]].
    intros key promise text Hk. rewrite Hr. eauto.
Qed.

Lemma timed_out_lookup_is_surfaced_witness :
  let remote := github true (Some true) in
  (snd (exec slow_env
          (getPullRequestForCommit all_on has_everything "4f2a9c1" [remote]))
   = Resolved (Some (ACancellationError pr_timeout)) /\
   lookup_calls (fst (exec slow_env
                        (getPullRequestForCommit all_on has_everything "4f2a9c1"
                           [remote])))
   = [Issued (GitGetPullRequestForCommit "4f2a9c1"
                (mkProvider "GitHub" true (Some true)) 250)]) /\
  snd (exec slow_env
         (getAutoLinkedIssues all_on has_everything keep_mapped "fix #12 #34" [remote]))
  = Resolved (Some some_links).
Proof.
  intros remote.
  pose proof (timed_out_lookup_is_surfaced all_on has_everything keep_mapped slow_env)
    as [Hpr Hlinks].
  split.
  - apply (Hpr "4f2a9c1" [remote] (mkProvider "GitHub" true (Some true)) pr_timeout).
    + simpl. right. left. reflexivity.
    + reflexivity.
    + reflexivity.
  - apply (Hlinks "fix #12 #34" [remote] remote some_links).
    + simpl. right. left. reflexivity.
    + reflexivity.
Defined.

Lemma getAutoLinkedIssues_resolves config has filterMap env message remotes :
  exists r, snd (exec env (getAutoLinkedIssues config has filterMap message remotes)) = Resolved r.
Proof. unfold getAutoLinkedIssues. branches; eauto. Qed.

Lemma presence_member_resolves env commit :
  exists r, snd (exec env (presence_member commit)) = Resolved r.
Proof. unfold presence_member. branches; eauto. Qed.

(** ** What the [try] blocks catch, and what they miss *)

Lemma isConnected_rejection_escapes config has env ref remotes remote p ex :
  pullRequests_enabled config = true ->
  has (detailsMarkdownFormat config) pullRequestTokens = true ->
  List.find is_default_with_provider remotes = Some remote ->
  provider remote = Some p -> hasApi p = true -> maybeConnected p = None ->
  env (IsConnected p) = Threw ex ->
  snd (exec env (getPullRequestForCommit config has ref remotes)) = Threw ex.
Proof.
  intros He Hh Hf Hp Ha Hc Hi. unfold getPullRequestForCommit, remote_hasApi.
  rewrite He, Hh, Hf. simpl. rewrite Hp. simpl. rewrite Ha. simpl.
  rewrite ?Hp, ?Hc. simpl. rewrite Hi. reflexivity.
Qed.

(** C5.  The code misses one call.  Both lookups put their query in a
    [try] whose [catch] logs the error and returns undefined: when
    [getIssueLinks] or [Container.git.getPullRequestForCommit] is issued
    and rejects with an error that is no [CancellationError], the lookup
    resolves to undefined.  But [provider.isConnected()] is awaited at
    line 283, before the [try] of [getPullRequestForCommit]: when the
    lookup has passed its gates, the connection state is unknown and
    [isConnected] rejects, the lookup rejects with that error, and the
    combined await of [detailsMessage] rejects: with that very error
    when the previous-line member resolves. *)
Theorem isConnected_failure_escapes_the_try config has fromTemplate filterMap env :
  (forall message remotes remote ex,
      In (Issued (GetIssueLinks message remote 250))
         (fst (exec env (getAutoLinkedIssues config has filterMap message remotes))) ->
      env (GetIssueLinks message remote 250) = Threw ex ->
      is_CancellationError ex = false ->
      snd (exec env (getAutoLinkedIssues config has filterMap message remotes))
      = Resolved None) /\
  (forall ref remotes p ex,
      In (Issued (GitGetPullRequestForCommit ref p 250))
         (fst (exec env (getPullRequestForCommit config has ref remotes))) ->
      env (GitGetPullRequestForCommit ref p 250) = Threw ex ->
      is_CancellationError ex = false ->
      snd (exec env (getPullRequestForCommit config has ref remotes))
      = Resolved None) /\
  (forall commit uri editorLine dateFormat annotationType remotes remote p ex,
      env (GetRemotes (repoPath commit)) = Resolved remotes ->
      pullRequests_enabled config = true ->
      has (detailsMarkdownFormat config) pullRequestTokens = true ->
      List.find is_default_with_provider remotes = Some remote ->
      provider remote = Some p -> hasApi p = true -> maybeConnected p = None ->
      env (IsConnected p) = Threw ex ->
      snd (exec env (getPullRequestForCommit config has (ref commit) remotes))
      = Threw ex /\
      (exists ex',
          snd (detailsMessage config has fromTemplate filterMap env commit uri
                 editorLine dateFormat annotationType) = Threw ex') /\
      ((exists uris,
           snd (exec env (previousLineDiffUris_member commit uri editorLine))
           = Resolved uris) ->
       snd (detailsMessage config has fromTemplate filterMap env commit uri
              editorLine dateFormat annotationType) = Threw ex)).
Proof.
  split; [| split].
  - intros message remotes remote ex. unfold getAutoLinkedIssues.
    branches; intros Hin He Hc; in_trace; settle_by_env.
  - intros ref remotes p ex. unfold getPullRequestForCommit.
    branches; intros Hin He Hc; in_trace; settle_by_env.
  - intros commit uri editorLine dateFormat annotationType remotes remote p ex
      Hr He Hh Hf Hp Ha Hc Hi.
    pose proof (isConnected_rejection_escapes config has env (ref commit) remotes
                  remote p ex He Hh Hf Hp Ha Hc Hi) as H3.
    split; [exact H3 |].
    destruct (getAutoLinkedIssues_resolves config has filterMap env (message commit)
                remotes) as [r2 H2].
    destruct (presence_member_resolves env commit) as [r4 H4].
    unfold detailsMessage. simpl in Hr. rewrite Hr.
    destruct (exec env (previousLineDiffUris_member commit uri editorLine)) as [t1 s1].
    destruct (exec env (getAutoLinkedIssues config has filterMap (message commit) remotes))
      as [t2 s2].
    destruct (exec env (getPullRequestForCommit config has (ref commit) remotes))
      as [t3 s3].
    destruct (exec env (presence_member commit)) as [t4 s4].
    simpl in *. subst s2 s3 s4.
    destruct s1 as [x1 | e1]; simpl; split; eauto.
    intros [uris Hu]. discriminate Hu.
Qed.

Lemma isConnected_failure_escapes_the_try_witness :
  let commit := mkCommit "/repo" "4f2a9c1" "fix #12" None false in
  snd (exec offline_env
         (getPullRequestForCommit all_on has_everything "4f2a9c1" [github true None]))
  = Threw (VError "ENOTFOUND") /\
  snd (detailsMessage all_on has_everything plain_template keep_mapped offline_env commit
         (mkUri None) 3 None (Some Blame))
  = Threw (VError "ENOTFOUND").
Proof.
  intros commit.
  pose proof (proj2 (proj2 (isConnected_failure_escapes_the_try all_on has_everything
                              plain_template keep_mapped offline_env))
                commit (mkUri None) 3 None (Some Blame) [github true None]
                (github true None) (mkProvider "GitHub" true None) (VError "ENOTFOUND")
                eq_refl eq_refl eq_refl eq_refl eq_refl eq_refl eq_refl eq_refl)
    as (Hl & _ & Hr).
  split; [exact Hl |].
  apply Hr. eexists. reflexivity.
Defined.

End HoversFacts.

(* ===================================================================== *)
(** * More facts about [Promises.cancellable] *)
(* ===================================================================== *)

Module PromisesMoreFacts.

Import Promises.
Import PromisesFacts.
Import PromisesMore.

(** ** The operation is left alone *)

Lemma calm_refl b opts st : Shape b opts st -> Calm b opts st st.
Proof. intros H. repeat split; auto. Qed.

Lemma calm_trans b opts s1 s2 s3 :
  Calm b opts s1 s2 -> Calm b opts s2 s3 -> Calm b opts s1 s3.
Proof.
  intros (_ & A1 & A2 & A3 & A4) (B0 & B1 & B2 & B3 & B4).
  repeat split; [assumption | congruence | congruence | congruence | auto].
Qed.

Lemma fires_calm b opts s1 s2 s3 :
  Fires b opts s1 s2 -> Calm b opts s2 s3 -> Fires b opts s1 s3.
Proof.
  intros (_ & A1 & A2 & A3 & A4) (B0 & B1 & B2 & B3 & B4).
  repeat split; [assumption | congruence | congruence | congruence | auto].
Qed.

Lemma calm_shape b opts st st' : Calm b opts st st' -> Shape b opts st'.
Proof. intros H. apply H. Qed.

Ltac open_shape :=
  match goal with
  | H : Shape ?b _ ?st |- _ =>
      destruct H as (c0 & c1 & fl & Hh & Hf & Ht & Hl & H0 & H1 & Hq);
      destruct b as [ms | tk]; [destruct Ht as [a Ht] |];
      destruct st as [h fr tm ls cs q n tr]; simpl in *; subst h fr tm ls
  end.

Ltac shape_ok :=
  eexists _, _, _; simpl;
  repeat (split; [first [reflexivity | eassumption | (eexists; reflexivity)] |]);
  simpl; rewrite ?Forall_app, ?Forall_map;
  repeat split; simpl; eauto.

Ltac close_calm :=
  split; [shape_ok |];
  unfold state_of, fired_count, timer_armed; simpl;
  rewrite ?List.filter_app, ?length_app; simpl;
  repeat split; auto; try lia; try discriminate.

Lemma react_jobs s rs :
  Forall react_ok rs -> Forall (fun x => job_ok (reaction_job s x)) rs.
Proof.
  induction 1 as [| r rs [Ha Hb] _ IH]; constructor; [destruct s; assumption | exact IH].
Qed.

Lemma calm_emit b opts e st :
  is_fired 0 e = false -> Shape b opts st -> Calm b opts st (emit e st).
Proof.
  intros He H. open_shape; close_calm; rewrite He; simpl; lia.
Qed.

Lemma calm_settle b opts s st : Shape b opts st -> Calm b opts st (settle 1 s st).
Proof.
  intros H. open_shape; unfold Calm, settle; simpl.
  all: destruct (state c1); simpl; close_calm; now apply react_jobs.
Qed.

Lemma calm_mark_resolved b opts st : Shape b opts st -> Calm b opts st (mark_resolved 1 st).
Proof. intros H. open_shape; close_calm. Qed.

Lemma calm_enqueue b opts j st :
  job_ok j -> Shape b opts st -> Calm b opts st (enqueue j st).
Proof. intros Hj H. open_shape; close_calm. Qed.

Lemma calm_promise_then b opts r onF onR st :
  good onF -> good onR -> Shape b opts st -> Calm b opts st (promise_then r onF onR st).
Proof.
  intros HF HR H. open_shape; unfold Calm, promise_then; simpl.
  all: destruct r as [| [| r]]; simpl.
  all: try (destruct (state c0) as [[v | x] |] eqn:E; simpl; close_calm;
            rewrite ?E; try reflexivity; repeat constructor; assumption).
  all: try (destruct (state c1) as [[v | x] |] eqn:E; simpl; close_calm;
            repeat constructor; assumption).
  all: close_calm.
Qed.

Lemma calm_rejectFn b opts v st : Shape b opts st -> Calm b opts st (rejectFn 1 v st).
Proof.
  intros H. unfold rejectFn.
  pose proof (calm_emit b opts (ECallReject 1 v) st eq_refl H) as He.
  destruct (is_resolved 1 (emit (ECallReject 1 v) st)); [assumption |].
  eapply calm_trans; [exact He |].
  pose proof (calm_mark_resolved b opts _ (calm_shape _ _ _ _ He)) as Hm.
  eapply calm_trans; [exact Hm |].
  apply calm_settle. eapply calm_shape, Hm.
Qed.

Lemma calm_resolveFn b opts x st : Shape b opts st -> Calm b opts st (resolveFn 1 x st).
Proof.
  intros H. unfold resolveFn.
  pose proof (calm_emit b opts (ECallResolve 1 x) st eq_refl H) as He.
  destruct (is_resolved 1 (emit (ECallResolve 1 x) st)); [assumption |].
  eapply calm_trans; [exact He |].
  pose proof (calm_mark_resolved b opts _ (calm_shape _ _ _ _ He)) as Hm.
  eapply calm_trans; [exact Hm |].
  destruct x as [v | r].
  - apply calm_settle. eapply calm_shape, Hm.
  - destruct (Nat.eqb r 1).
    + apply calm_settle. eapply calm_shape, Hm.
    + apply calm_enqueue; [reflexivity | eapply calm_shape, Hm].
Qed.

Lemma calm_run_onDidCancel b opts cb :
  forall st, Shape b opts st -> Calm b opts st (run_onDidCancel 1 cb st).
Proof.
  unfold run_onDidCancel.
  induction cb as [| x cb IH]; intros st H; simpl.
  - now apply calm_refl.
  - assert (Ha : Calm b opts st (run_action 1 x st)).
    { destruct x; [now apply calm_resolveFn | now apply calm_rejectFn]. }
    eapply calm_trans; [exact Ha | apply IH; eapply calm_shape, Ha].
Qed.

(** The two lines that open both then-callbacks: [fulfilled = true] and
    [clearTimeout(timer)]. *)
Lemma calm_disarm b opts st :
  Shape b opts st ->
  Calm b opts st
    (match (match b with Timeout _ => Some 0 | Token _ => None end) with
     | Some id => clearTimeout id (set_fulfilled 0 st)
     | None => set_fulfilled 0 st
     end).
Proof. intros H. open_shape; close_calm. Qed.

Lemma calm_call b opts c arg st :
  good c -> Shape b opts st -> Calm b opts st (call c arg st).
Proof.
  intros Hc H. pose proof (calm_disarm b opts st H) as Hd.
  destruct c as [k | k | k | k | w | w]; simpl in Hc;
    [destruct Hc | destruct Hc | | | subst w | subst w].
  - destruct k as [| k].
    + assert (E : call (OnFulfilled 0) arg st =
                  resolveFn 1 (Thenable operation)
                    (match (match b with Timeout _ => Some 0 | Token _ => None end) with
                     | Some id => clearTimeout id (set_fulfilled 0 st)
                     | None => set_fulfilled 0 st
                     end)).
      { open_shape; reflexivity. }
      rewrite E. eapply calm_trans; [exact Hd |].
      apply calm_resolveFn. eapply calm_shape, Hd.
    + assert (E : call (OnFulfilled (S k)) arg st = st).
      { open_shape; reflexivity. }
      rewrite E. now apply calm_refl.
  - destruct k as [| k].
    + assert (E : call (OnRejected 0) arg st =
                  rejectFn 1 arg
                    (match (match b with Timeout _ => Some 0 | Token _ => None end) with
                     | Some id => clearTimeout id (set_fulfilled 0 st)
                     | None => set_fulfilled 0 st
                     end)).
      { open_shape; reflexivity. }
      rewrite E. eapply calm_trans; [exact Hd |].
      apply calm_rejectFn. eapply calm_shape, Hd.
    + assert (E : call (OnRejected (S k)) arg st = st).
      { open_shape; reflexivity. }
      rewrite E. now apply calm_refl.
  - apply calm_settle, H.
  - apply calm_settle, H.
Qed.

Lemma fired_count_emit st :
  fired_count 0 (emit (EBoundFired 0) st) = S (fired_count 0 st).
Proof.
  unfold fired_count, emit; simpl. rewrite List.filter_app, length_app. simpl. lia.
Qed.

Lemma fires_cancel_branch b opts st :
  Shape b opts st -> Fires b opts st (cancel_branch b opts st).
Proof.
  intros H.
  assert (He : Fires b opts st (emit (EBoundFired 0) st)).
  { split; [| split; [| split; [apply fired_count_emit | split]]];
      try reflexivity; [| auto].
    open_shape; shape_ok. }
  unfold cancel_branch. eapply fires_calm; [exact He |].
  destruct (onDidCancel opts);
    [apply calm_run_onDidCancel | apply calm_rejectFn]; apply He.
Qed.

Lemma spent_calm b opts st st' :
  Calm b opts st st' -> bound_spent b st = true -> bound_spent b st' = true.
Proof.
  intros (_ & _ & _ & Hc & Ha). unfold bound_spent. destruct b.
  - destruct (timer_armed 0 st'); [| reflexivity].
    rewrite Ha; [trivial | reflexivity].
  - now rewrite Hc.
Qed.

Lemma once_calm b opts st st' : Calm b opts st st' -> Once b st -> Once b st'.
Proof.
  intros Hc [H0 | [H1 Hs]]; pose proof Hc as (_ & _ & Hf & _).
  - left. congruence.
  - right. split; [congruence | eapply spent_calm; eassumption].
Qed.

Lemma once_fires b opts st st' :
  Fires b opts st st' -> fired_count 0 st = 0 -> bound_spent b st = true -> Once b st'.
Proof.
  intros (_ & _ & Hf & Hc & Ha) H0 Hs. right. split; [lia |].
  unfold bound_spent in *. destruct b.
  - destruct (timer_armed 0 st'); [| reflexivity].
    rewrite Ha in Hs; [discriminate | reflexivity].
  - now rewrite Hc.
Qed.

Lemma unspent_unfired b st : Once b st -> bound_spent b st = false -> fired_count 0 st = 0.
Proof. intros [H | [_ H]] Hs; [assumption | congruence]. Qed.

Ltac once_same :=
  match goal with
  | H : Once _ _ |- Once _ _ =>
      unfold Once, fired_count, bound_spent, timer_armed in *; simpl in *;
      rewrite ?List.filter_app, ?length_app; simpl; rewrite ?Nat.add_0_r;
      exact H
  end.

(** *** The events that can run the cancel branch *)

Lemma token_cancelled_cases b opts t' st :
  Shape b opts st ->
  existsb (Nat.eqb t') (cancelled st) = false ->
  let st1 := with_cancelled (t' :: cancelled st) st in
  Shape b opts st1 /\
  state_of operation st1 = state_of operation st /\
  fired_count 0 st1 = fired_count 0 st /\
  (bound_spent b st = true -> bound_spent b st1 = true) /\
  (step (TokenCancelled t') st = st1 \/
   (b = Token t' /\ step (TokenCancelled t') st = cancel_branch b opts st1)).
Proof.
  intros H Ec st1. subst st1. unfold step. rewrite Ec.
  open_shape; unfold token_listeners, bound_spent, cancel_branch; simpl.
  - split; [shape_ok |]. repeat split; auto.
  - split; [shape_ok |]. split; [reflexivity |]. split; [reflexivity |].
    split; [intros ->; apply orb_true_r |].
    destruct (Nat.eqb tk t') eqn:Et; simpl; [| now left].
    apply Nat.eqb_eq in Et. subst t'.
    destruct fl; [now left | right]. split; reflexivity.
Qed.

Lemma timer_fires_cases b opts id st :
  Shape b opts st ->
  step (TimerFires id) st = st \/
  exists ms,
    let st1 := with_timers [mkTimer (TimerCallback 0) (timer_delay ms) false] st in
    b = Timeout ms /\ bound_spent b st = false /\
    Shape b opts st1 /\
    state_of operation st1 = state_of operation st /\
    fired_count 0 st1 = fired_count 0 st /\
    bound_spent b st1 = true /\
    step (TimerFires id) st = cancel_branch b opts st1.
Proof.
  intros H. open_shape; unfold step, timer_ready, bound_spent, timer_armed, cancel_branch;
    simpl.
  - destruct q as [| j q]; [| now left].
    destruct id as [| id]; simpl; [| now left].
    destruct a; simpl; [| now left].
    destruct (Nat.leb (timer_delay ms) n); [| now left].
    right. exists ms. simpl. split; [reflexivity |]. split; [reflexivity |].
    split; [shape_ok |]. repeat split.
  - destruct q as [| j q]; [| now left]. destruct id; now left.
Qed.

Lemma microtask_cases b opts st :
  Shape b opts st ->
  step Microtask st = st \/
  exists j q,
    let st1 := with_microtasks q st in
    job_ok j /\ Shape b opts st1 /\
    state_of operation st1 = state_of operation st /\
    fired_count 0 st1 = fired_count 0 st /\
    bound_spent b st1 = bound_spent b st /\
    step Microtask st = run_job j st1.
Proof.
  intros H. open_shape; unfold step; simpl.
  all: destruct q as [| j q]; [now left | right].
  all: exists j, q; simpl; inversion Hq; subst.
  all: split; [assumption |]; split; [shape_ok |]; repeat split.
Qed.

Lemma calm_run_job b opts j st :
  job_ok j -> Shape b opts st -> Calm b opts st (run_job j st).
Proof.
  intros Hj H. destruct j as [c arg | w r]; simpl in Hj; simpl.
  - now apply calm_call.
  - subst w. apply calm_promise_then; [reflexivity | reflexivity | exact H].
Qed.

Lemma once_moved b st st1 :
  Once b st ->
  fired_count 0 st1 = fired_count 0 st ->
  (bound_spent b st = true -> bound_spent b st1 = true) ->
  Once b st1.
Proof.
  intros [H0 | [H1 Hs]] Hf Hm; [left; congruence | right; split; [congruence | auto]].
Qed.

(** One event, whatever the options: the state keeps its shape, the cancel
    branch has run at most once, and the operation changes only by
    settling itself. *)
Lemma shape_step b opts e st :
  Shape b opts st -> Once b st ->
  Shape b opts (step e st) /\ Once b (step e st) /\
  state_of operation (step e st) = next e (state_of operation st).
Proof.
  intros H HO. destruct e as [r s | t' | d | id |].
  - (* the operation is settled *)
    destruct r as [| [| r]]; open_shape;
      unfold step, is_wrapper, settle, state_of; simpl.
    all: try (destruct (state c0) eqn:E; simpl; rewrite ?E).
    all: (split; [shape_ok; now apply react_jobs | split; [once_same | reflexivity]]).
  - (* a token is cancelled *)
    destruct (existsb (Nat.eqb t') (cancelled st)) eqn:Ec.
    { unfold step. rewrite Ec. split; [assumption | split; [assumption | reflexivity]]. }
    destruct (token_cancelled_cases b opts t' st H Ec)
      as (H1 & Hs1 & Hf1 & Hm1 & [E | [-> E]]); rewrite E; simpl.
    + split; [assumption | split; [| assumption]].
      eapply once_moved; eassumption.
    + pose proof (fires_cancel_branch _ opts _ H1) as HF.
      split; [apply HF |]. split.
      * eapply once_fires; [exact HF | |].
        -- rewrite Hf1. apply (unspent_unfired _ _ HO). exact Ec.
        -- simpl. now rewrite Nat.eqb_refl.
      * destruct HF as (_ & Hs & _). congruence.
  - (* time passes *)
    open_shape; (split; [shape_ok | split; [once_same | reflexivity]]).
  - (* a timer task runs *)
    destruct (timer_fires_cases b opts id st H)
      as [E | (ms & -> & Hu & H1 & Hs1 & Hf1 & Hb1 & E)]; rewrite E; simpl.
    + split; [assumption | split; [assumption | reflexivity]].
    + pose proof (fires_cancel_branch _ opts _ H1) as HF.
      split; [apply HF |]. split.
      * eapply once_fires; [exact HF | | exact Hb1].
        rewrite Hf1. apply (unspent_unfired _ _ HO Hu).
      * destruct HF as (_ & Hs & _). congruence.
  - (* a microtask runs *)
    destruct (microtask_cases b opts st H)
      as [E | (j & q & Hj & H1 & Hs1 & Hf1 & Hb1 & E)]; rewrite E; simpl.
    + split; [assumption | split; [assumption | reflexivity]].
    + pose proof (calm_run_job b opts j _ Hj H1) as HC.
      split; [apply HC |]. split.
      * apply (once_calm _ _ _ _ HC).
        eapply once_moved; [exact HO | exact Hf1 | now rewrite Hb1].
      * destruct HC as (_ & Hs & _). congruence.
Qed.

Lemma bare_step e st :
  Bare st ->
  Bare (step e st) /\
  state_of operation (step e st) = next e (state_of operation st).
Proof.
  intros (c0 & Hh & Hr & Hf & Ht & Hl & Hq).
  destruct st as [h fr t l cs q n tr]; simpl in *; subst.
  destruct e as [r s | tk | ms | id |].
  - destruct r as [| r]; unfold step, is_wrapper, settle, state_of; simpl.
    + destruct (state c0) eqn:E; simpl; rewrite ?E, ?Hr; split; try reflexivity;
        eexists; simpl; eauto 10.
    + split; [eexists; simpl; eauto 10 | reflexivity].
  - unfold step; simpl. destruct (existsb (Nat.eqb tk) cs); simpl;
      (split; [eexists; simpl; eauto 10 | reflexivity]).
  - split; [eexists; simpl; eauto 10 | reflexivity].
  - split; [eexists; simpl; eauto 10 | reflexivity].
  - split; [eexists; simpl; eauto 10 | reflexivity].
Qed.

Lemma shape_called b opts o : Shape b opts (called b opts o).
Proof.
  destruct b, o as [[v | x] |]; eexists _, _, _; simpl;
    repeat (split; [first [reflexivity | (eexists; reflexivity)] |]);
    repeat split; repeat constructor.
Qed.

Lemma once_called b opts o : Once b (called b opts o).
Proof. left. destruct b, o as [[v | x] |]; reflexivity. Qed.

Lemma bare_init o : Bare (init o).
Proof. eexists; simpl; eauto 10. Qed.

Lemma shape_run b opts sched :
  forall st, Shape b opts st -> Once b st ->
             Shape b opts (run sched st) /\ Once b (run sched st).
Proof.
  induction sched as [| e sched IH]; intros st H HO; simpl; [now split |].
  destruct (shape_step b opts e st H HO) as (H' & HO' & _). now apply IH.
Qed.

Lemma same_outcome b opts sched :
  forall st st0,
    Shape b opts st -> Once b st -> Bare st0 ->
    state_of operation st = state_of operation st0 ->
    state_of operation (run sched st) = state_of operation (run sched st0).
Proof.
  induction sched as [| e sched IH]; intros st st0 H HO H0 Hs; simpl; [assumption |].
  destruct (shape_step b opts e st H HO) as (H' & HO' & Hs').
  destruct (bare_step e st0 H0) as [H0' Hs0'].
  apply IH; [assumption | assumption | assumption | congruence].
Qed.

Lemma fired_count_bound st :
  (fired_count 0 st = 0 -> bound_fired 0 st = false) /\
  (bound_fired 0 st = true <-> 0 < fired_count 0 st).
Proof.
  unfold fired_count, bound_fired.
  induction (trace st) as [| e tr [IH0 IH1]]; simpl.
  - split; [reflexivity | split; [discriminate | lia]].
  - destruct (is_fired 0 e); simpl.
    + split; [discriminate | split; [lia | reflexivity]].
    + split; [exact IH0 | exact IH1].
Qed.

(** X1.  [cancellable] never touches the promise it watches: whatever the
    bound, the options (any [onDidCancel] included) and the order of
    events, the operation is in the state it would be in had
    [cancellable] never been called. *)
Theorem operation_keeps_its_outcome b opts o sched :
  state_of operation (run sched (called b opts o)) =
  state_of operation (run sched (init o)).
Proof.
  apply (same_outcome b opts);
    [apply shape_called | apply once_called | apply bare_init |].
  destruct b, o as [[v | x] |]; reflexivity.
Qed.

(** X2.  The cancel branch runs at most once: whatever the bound, the
    options and the order of events, [onDidCancel] (or the default
    rejection) is run at most one time per call, and once it has run the
    bound is spent: the timer is no longer armed, the token is
    cancelled. *)
Theorem cancel_branch_runs_at_most_once b opts o sched :
  fired_count 0 (run sched (called b opts o)) <= 1 /\
  (fired_count 0 (run sched (called b opts o)) = 1 <->
   bound_fired 0 (run sched (called b opts o)) = true) /\
  (bound_fired 0 (run sched (called b opts o)) = true ->
   bound_spent b (run sched (called b opts o)) = true).
Proof.
  destruct (shape_run b opts sched _ (shape_called b opts o) (once_called b opts o))
    as [_ HO].
  pose proof (fired_count_bound (run sched (called b opts o))) as [H0 H1].
  destruct HO as [H | [H Hs]].
  - split; [lia |]. split; [split; [lia |] |]; intros Hb; apply H1 in Hb; lia.
  - split; [lia |]. split; [split; [intros _; apply H1; lia | trivial] | trivial].
Qed.

(** ** While the bound is silent *)

Lemma quiet_step b opts e ph st :
  Inv b opts ph false st -> cannot_fire b e st ->
  bound_fired 0 (step e st) = false /\ now (step e st) = now st + duration e.
Proof.
  intros [Hh Hf Ht Hl Hq Hb Ha] Hc.
  destruct st as [h f t l cs q n tr]; simpl in *; subst h f t l q.
  unfold bound_fired in *; simpl in Hb.
  destruct e as [r s | t' | ms' | id |].
  all: try (destruct r as [| [| r]]); try (destruct id as [| id]).
  all: destruct ph as [| [v | x] | v | v | out], b; simpl in Hc.
  all: unfold step, token_listeners, timer_ready;
    repeat (simpl; split_ifs); try destruct s; simpl.
  all: try (split; [rewrite ?existsb_app; simpl; rewrite Hb; reflexivity | lia]).
  all: exfalso;
    repeat match goal with
           | H : Nat.eqb _ _ = true |- _ => apply Nat.eqb_eq in H
           | H : Nat.leb _ _ = true |- _ => apply Nat.leb_le in H
           end;
    subst; first [ congruence | lia ].
Qed.

Lemma now_quiet_run b opts sched :
  forall ph st,
    Inv b opts ph false st ->
    (forall ms, b = Timeout ms -> now st + elapsed sched < timer_delay ms) ->
    (forall t, b = Token t -> ~ In (TokenCancelled t) sched) ->
    exists ph', Inv b opts ph' false (run sched st).
Proof.
  induction sched as [| e sched IH]; intros ph st HI Hms Ht; simpl.
  - eauto.
  - assert (Hc : cannot_fire b e st).
    { unfold cannot_fire. destruct b as [ms | t], e; auto.
      + specialize (Hms ms eq_refl). simpl in Hms. lia.
      + intros ->. apply (Ht t eq_refl). now left. }
    destruct (quiet_step b opts e ph st HI Hc) as [Hb Hn].
    destruct (inv_step_quiet b opts e ph st HI Hb) as (ph1 & H1).
    apply (IH ph1 _ H1).
    + intros ms ->. specialize (Hms ms eq_refl). simpl in Hms. lia.
    + intros t -> Hin. apply (Ht t eq_refl). now right.
Qed.

Lemma inv_follows b opts ph st :
  Inv b opts ph false st -> follows 1 st.
Proof.
  intros HI. unfold follows.
  rewrite (inv_state_W _ _ _ _ _ HI), (inv_state_O _ _ _ _ _ HI),
    (inv_fired _ _ _ _ _ HI), (inv_queue _ _ _ _ _ HI).
  destruct ph as [| [v | x] | v | v | out]; simpl;
    repeat split; auto; intros; discriminate.
Qed.

(** X3.  A token that is never cancelled is no bound at all: whatever the
    options and the other events (cancellations of other tokens
    included), the cancel branch does not run and the returned promise
    takes the operation's state. *)
Theorem silent_token_is_no_bound t opts o sched :
  ~ In (TokenCancelled t) sched ->
  follows (returned (Token t) opts o) (run sched (called (Token t) opts o)).
Proof.
  intros Hs. change (returned (Token t) opts o) with 1.
  destruct (now_quiet_run (Token t) opts sched _ _ (inv_called (Token t) opts o))
    as (ph & HI).
  - intros ms [=].
  - intros t' [= <-]. exact Hs.
  - eapply inv_follows, HI.
Qed.

Lemma silent_token_is_no_bound_witness :
  let opts := mkOptions None (Some [CbReject (VError "gone")]) in
  let sched := [TokenCancelled 4; OperationSettles operation (Fulfilled (VNum 1));
                Microtask; Microtask; Microtask] in
  follows (returned (Token 3) opts None) (run sched (called (Token 3) opts None)).
Proof.
  intros opts sched.
  assert (Hs : ~ In (TokenCancelled 3) sched).
  { simpl. intros [H | [H | [H | [H | [H | H]]]]]; try discriminate H. exact H. }
  exact (silent_token_is_no_bound 3 opts None sched Hs).
Defined.

(** The delay the timer is armed with is the one given, up to 2^31-1. *)
Lemma timer_delay_in_range ms :
  (Z.of_nat ms <= 2147483647)%Z -> timer_delay ms = ms.
Proof.
  intros H. unfold timer_delay.
  destruct (Z.ltb_spec 2147483647 (Z.of_nat ms)); [lia | reflexivity].
Qed.

Lemma timer_delay_clamped ms :
  (2147483647 < Z.of_nat ms)%Z -> timer_delay ms = 1.
Proof.
  intros H. unfold timer_delay.
  destruct (Z.ltb_spec 2147483647 (Z.of_nat ms)); [reflexivity | lia].
Qed.

(** A delay above 2^31-1 is one of 1 ms: the timer task can run after
    1 ms, and rejects the wrapper of a pending operation. *)
Lemma huge_timeout_fires_after_1_ms ms opts :
  (2147483647 < Z.of_nat ms)%Z -> onDidCancel opts = None ->
  state_of (returned (Timeout ms) opts None)
    (run [Elapse 1; TimerFires 0] (called (Timeout ms) opts None))
  = Some (Rejected (cancellation (Timeout ms) opts)).
Proof.
  intros Hms Hd. change (returned (Timeout ms) opts None) with 1.
  assert (HI : Inv (Timeout ms) opts OpPending false
                 (run [Elapse 1] (called (Timeout ms) opts None)))
    by (apply pending_unfired; reflexivity).
  assert (Hr : bound_ready (Timeout ms) (run [Elapse 1] (called (Timeout ms) opts None))
               = true).
  { unfold bound_ready. rewrite (timer_delay_clamped ms Hms). reflexivity. }
  pose proof (fires_default _ opts _ Hd HI Hr) as HI2.
  exact (inv_state_W _ _ _ _ _ HI2).
Qed.

(** X4.  A timeout never comes early: in a schedule whose [Elapse] events
    add up to less than the delay the timer is armed with (the delay
    given, or 1 ms when that exceeds 2^31-1), whatever else happens
    (timer tasks tried too soon included), the cancel branch does not run
    and the returned promise takes the operation's state. *)
Theorem timeout_is_never_early ms opts o sched :
  elapsed sched < timer_delay ms ->
  follows (returned (Timeout ms) opts o) (run sched (called (Timeout ms) opts o)).
Proof.
  intros He. change (returned (Timeout ms) opts o) with 1.
  destruct (now_quiet_run (Timeout ms) opts sched _ _ (inv_called (Timeout ms) opts o))
    as (ph & HI).
  - intros ms' [= <-]. destruct o; exact He.
  - intros t [=].
  - eapply inv_follows, HI.
Qed.

Lemma timeout_is_never_early_witness :
  let opts := mkOptions None None in
  let sched := [Elapse 100; TimerFires 0; Elapse 149; TimerFires 0; Microtask] in
  follows (returned (Timeout 250) opts None) (run sched (called (Timeout 250) opts None)).
Proof.
  intros opts sched.
  assert (He : elapsed sched < 250) by (vm_compute; lia).
  exact (timeout_is_never_early 250 opts None sched He).
Defined.

(** ** No timer is left behind *)

(** X5.  With no [onDidCancel], once the returned promise has settled, on
    either side of the race, no timer of the call is armed: a timer that
    fired is spent, and one that lost was cleared by the then-callback. *)
Theorem settled_wrapper_has_no_timer b opts o sched :
  onDidCancel opts = None ->
  state_of (returned b opts o) (run sched (called b opts o)) <> None ->
  timer_armed 0 (run sched (called b opts o)) = false.
Proof.
  intros Hd. change (returned b opts o) with 1.
  destruct (inv_run b opts sched _ _ _ Hd (inv_called b opts o)) as (ph & c & HI).
  unfold timer_armed.
  rewrite (inv_state_W _ _ _ _ _ HI), (inv_timers _ _ _ _ _ HI).
  pose proof (inv_adopt _ _ _ _ _ HI) as Ha.
  destruct ph as [| out | v | v | out], c, b; simpl in *; congruence.
Qed.

Lemma settled_wrapper_has_no_timer_witness :
  let opts := mkOptions (Some "too slow") None in
  let sched := [Elapse 300; TimerFires 0] in
  timer_armed 0 (run sched (called (Timeout 250) opts None)) = false.
Proof.
  intros opts sched.
  assert (Hd : onDidCancel opts = None) by reflexivity.
  assert (Hs : state_of (returned (Timeout 250) opts None)
                 (run sched (called (Timeout 250) opts None)) <> None)
    by discriminate.
  exact (settled_wrapper_has_no_timer (Timeout 250) opts None sched Hd Hs).
Defined.

End PromisesMoreFacts.

(* ===================================================================== *)
(** * More facts about the lookups and the round *)
(* ===================================================================== *)

Module HoversMoreFacts.

Import Promises.
Import Hovers.
Import HoversFacts.
Import HoversMore.

(** X6.  [getAutoLinkedIssues] never rejects, and what it resolves to is
    undefined or the very map [getIssueLinks] resolved to for the first
    default remote with a provider, asked once with the 250 ms timeout. *)
Theorem getAutoLinkedIssues_never_rejects config has filterMap env message remotes :
  let run := exec env (getAutoLinkedIssues config has filterMap message remotes) in
  snd run = Resolved None \/
  exists remote links,
    List.find is_default_with_provider remotes = Some remote /\
    lookup_calls (fst run) = [Issued (GetIssueLinks message remote 250)] /\
    env (GetIssueLinks message remote 250) = Resolved (Some links) /\
    snd run = Resolved (Some links).
Proof.
  intros run. subst run. unfold getAutoLinkedIssues.
  branches; auto; right; eauto 10.
Qed.

(** X7.  The debug logging is only logging: with any other logger level
    and debugging flag, and any other [Iterables.filterMap],
    [getAutoLinkedIssues] issues the same calls and resolves to the same
    result. *)
Theorem logging_does_not_change_autolinks config has filterMap filterMap' env
    message remotes level debugging :
  let config' := mkConfig (autolinks_enabled config) (autolinks_enhanced config)
                   (pullRequests_enabled config) (detailsMarkdownFormat config)
                   level debugging in
  snd (exec env (getAutoLinkedIssues config' has filterMap' message remotes))
  = snd (exec env (getAutoLinkedIssues config has filterMap message remotes)) /\
  calls (fst (exec env (getAutoLinkedIssues config' has filterMap' message remotes)))
  = calls (fst (exec env (getAutoLinkedIssues config has filterMap message remotes))).
Proof.
  intros config'. subst config'. unfold getAutoLinkedIssues, Hovers.debugging.
  branches; split; reflexivity.
Qed.

Ltac bools :=
  repeat match goal with
         | H : negb _ = true |- _ => apply negb_true_iff in H
         | H : negb _ = false |- _ => apply negb_false_iff in H
         | H : _ || _ = true |- _ => apply orb_true_iff in H; destruct H
         | H : _ || _ = false |- _ => apply orb_false_iff in H; destruct H
         | H : _ && _ = true |- _ => apply andb_true_iff in H; destruct H
         end.

(** Bring together what the hypotheses say of the same terms. *)
Ltac reconcile :=
  bools; subst;
  repeat (match goal with
          | H : ?x = _, H' : context [?x] |- _ =>
              lazymatch x with
              | Some _ => fail
              | Resolved _ => fail
              | Threw _ => fail
              | true => fail
              | false => fail
              | _ => rewrite H in H'
              end
          end; simpl in *; bools);
  repeat match goal with
         | H : Some _ = Some _ |- _ => injection H as H
         | H : Resolved _ = Resolved _ |- _ => injection H as H
         | H : Threw _ = Threw _ |- _ => injection H as H
         end;
  subst; try discriminate.

Ltac same_provider :=
  repeat match goal with
         | H : provider ?x = Some _, H' : provider ?x = Some _ |- _ =>
             rewrite H in H'; injection H' as H'; subst
         end.

(** X8.  The pull-request query is issued exactly when pull requests are
    enabled, the template has a pull-request token, the first default
    remote with a provider has the API, and that provider is connected:
    known to be, or unknown and answering true when asked.  It is issued
    for the commit's ref, with that provider and the 250 ms timeout. *)
Theorem pull_request_call_needs_connection config has env ref remotes ref' p timeout :
  In (Issued (GitGetPullRequestForCommit ref' p timeout))
     (fst (exec env (getPullRequestForCommit config has ref remotes)))
  <-> ref' = ref /\ timeout = 250 /\
      pullRequests_enabled config = true /\
      has (detailsMarkdownFormat config) pullRequestTokens = true /\
      exists remote,
        List.find is_default_with_provider remotes = Some remote /\
        provider remote = Some p /\ hasApi p = true /\ is_connected env p.
Proof.
  unfold getPullRequestForCommit, is_connected.
  branches; (split; [intros Hin | intros (-> & -> & He & Hh & remote & Hf & Hp & Ha & Hc)]).
  all: try (in_trace; bools; subst; repeat split; eauto 10; fail).
  all: destruct Hc as [Hc | [Hc Hi]]; simpl in *; reconcile; same_provider;
    reconcile; first [ congruence | simpl; auto 10 ].
Qed.

Lemma pull_request_call_needs_connection_witness :
  In (Issued (GitGetPullRequestForCommit "4f2a9c1" (mkProvider "GitHub" true (Some true)) 250))
     (fst (exec slow_env
             (getPullRequestForCommit all_on has_everything "4f2a9c1"
                [github true (Some true)]))).
Proof.
  apply (proj2 (pull_request_call_needs_connection all_on has_everything slow_env "4f2a9c1"
                  [github true (Some true)] "4f2a9c1"
                  (mkProvider "GitHub" true (Some true)) 250)).
  repeat (split; [reflexivity |]).
  exists (github true (Some true)).
  repeat (split; [reflexivity |]).
  left. reflexivity.
Defined.

(** X9.  [provider.isConnected()] is called exactly when the lookup has
    passed its gates and [maybeConnected] is undefined: a known state,
    connected or not, is never asked again. *)
Theorem isConnected_is_asked_only_when_unknown config has env ref remotes p :
  In (Issued (IsConnected p))
     (fst (exec env (getPullRequestForCommit config has ref remotes)))
  <-> pullRequests_enabled config = true /\
      has (detailsMarkdownFormat config) pullRequestTokens = true /\
      exists remote,
        List.find is_default_with_provider remotes = Some remote /\
        provider remote = Some p /\ hasApi p = true /\ maybeConnected p = None.
Proof.
  unfold getPullRequestForCommit.
  branches; (split; [intros Hin | intros (He & Hh & remote & Hf & Hp & Ha & Hc)]).
  all: try (in_trace; bools; subst; repeat split; eauto 10; fail).
  all: simpl in *; reconcile; same_provider;
    reconcile; first [ congruence | simpl; auto 10 ].
Qed.

Lemma isConnected_is_asked_only_when_unknown_witness :
  In (Issued (IsConnected (mkProvider "GitHub" true None)))
     (fst (exec failing_env
             (getPullRequestForCommit all_on has_everything "4f2a9c1" [github true None]))).
Proof.
  apply (proj2 (isConnected_is_asked_only_when_unknown all_on has_everything failing_env
                  "4f2a9c1" [github true None] (mkProvider "GitHub" true None))).
  repeat (split; [reflexivity |]).
  exists (github true None).
  repeat split; reflexivity.
Defined.

(** X10.  [getPullRequestForCommit] rejects exactly when
    [provider.isConnected()] is called and rejects, with that error (the
    await of line 283 is outside the [try]); no lookup call has been
    issued then. *)
Theorem pull_request_lookup_rejects_with_isConnected config has env ref remotes ex :
  let run := exec env (getPullRequestForCommit config has ref remotes) in
  (snd run = Threw ex
   <-> pullRequests_enabled config = true /\
       has (detailsMarkdownFormat config) pullRequestTokens = true /\
       exists remote p,
         List.find is_default_with_provider remotes = Some remote /\
         provider remote = Some p /\ hasApi p = true /\
         maybeConnected p = None /\ env (IsConnected p) = Threw ex) /\
  (snd run = Threw ex -> lookup_calls (fst run) = []).
Proof.
  intros run. subst run. unfold getPullRequestForCommit.
  branches; (split; [split; [intros Hin | intros (He & Hh & remote & p & Hf & Hp & Ha & Hc & Hi)] | intros Hin]).
  all: try (try discriminate Hin; try injection Hin as ->; bools; subst;
            repeat split; eauto 10; fail).
  all: simpl in *; reconcile; same_provider;
    reconcile; first [ congruence | simpl; auto 10 ].
Qed.

Lemma pull_request_lookup_rejects_with_isConnected_witness :
  snd (exec offline_env
         (getPullRequestForCommit all_on has_everything "4f2a9c1" [github true None]))
  = Threw (VError "ENOTFOUND").
Proof.
  apply (proj2 (proj1 (pull_request_lookup_rejects_with_isConnected all_on has_everything
                         offline_env "4f2a9c1" [github true None] (VError "ENOTFOUND")))).
  repeat (split; [reflexivity |]).
  exists (github true None), (mkProvider "GitHub" true None).
  repeat split; reflexivity.
Defined.

(** X11.  What [getPullRequestForCommit] resolves to is traced to its
    cause: a remote is the first default remote with a provider that has
    the API, and no lookup call was made; a pull request is what the one
    pull-request call resolved to; a [CancellationError] is what that call
    rejected with. *)
Theorem pull_request_result_comes_from_the_call config has env ref remotes out :
  snd (exec env (getPullRequestForCommit config has ref remotes)) = Resolved (Some out) ->
  exists remote p,
    List.find is_default_with_provider remotes = Some remote /\
    provider remote = Some p /\ hasApi p = true /\
    match out with
    | ARemote r =>
        r = remote /\
        lookup_calls (fst (exec env (getPullRequestForCommit config has ref remotes))) = []
    | APullRequest pr =>
        lookup_calls (fst (exec env (getPullRequestForCommit config has ref remotes)))
        = [Issued (GitGetPullRequestForCommit ref p 250)] /\
        env (GitGetPullRequestForCommit ref p 250) = Resolved (Some pr)
    | ACancellationError ex =>
        lookup_calls (fst (exec env (getPullRequestForCommit config has ref remotes)))
        = [Issued (GitGetPullRequestForCommit ref p 250)] /\
        env (GitGetPullRequestForCommit ref p 250) = Threw ex /\
        is_CancellationError ex = true
    end.
Proof.
  unfold getPullRequestForCommit.
  branches; intros Hr; try discriminate Hr; injection Hr as Hr.
  all: repeat match goal with
              | H : option_map _ ?x = Some _ |- _ =>
                  destruct x; simpl in H; [| discriminate H]
              end.
  all: try discriminate Hr.
  all: try (injection Hr as Hr); subst.
  all: eexists _, _; repeat split; eauto.
  all: match goal with
       | H : negb (hasApi ?r) = false |- hasApi ?r = true =>
           now apply negb_false_iff in H
       end.
Qed.

Lemma pull_request_result_comes_from_the_call_witness :
  exists remote p,
    List.find is_default_with_provider [github true (Some true)] = Some remote /\
    provider remote = Some p /\ hasApi p = true /\
    (lookup_calls
       (fst (exec slow_env
               (getPullRequestForCommit all_on has_everything "4f2a9c1"
                  [github true (Some true)])))
     = [Issued (GitGetPullRequestForCommit "4f2a9c1" p 250)] /\
     slow_env (GitGetPullRequestForCommit "4f2a9c1" p 250) = Threw pr_timeout /\
     is_CancellationError pr_timeout = true).
Proof.
  exact (pull_request_result_comes_from_the_call all_on has_everything slow_env "4f2a9c1"
           [github true (Some true)] (ACancellationError pr_timeout) eq_refl).
Defined.

(** ** The round of [detailsMessage] *)

Ltac unfold_round :=
  unfold detailsMessage, getAutoLinkedIssues, getPullRequestForCommit,
    previousLineDiffUris_member, presence_member.

(** X12.  A failing presence lookup is the same as one that finds nothing
    ([.catch(reason => undefined)], line 162): the round ends as it does
    when [maybeGetPresence] resolves to undefined. *)
Theorem presence_failure_is_swallowed config has fromTemplate filterMap env commit uri
    editorLine dateFormat annotationType ex :
  env (MaybeGetPresence (email commit)) = Threw ex ->
  snd (detailsMessage config has fromTemplate filterMap env commit uri editorLine
         dateFormat annotationType)
  = snd (detailsMessage config has fromTemplate filterMap (without_presence env) commit
           uri editorLine dateFormat annotationType).
Proof.
  intros Hp. unfold_round. simpl. rewrite Hp.
  branches; reflexivity.
Qed.

Lemma presence_failure_is_swallowed_witness :
  snd (detailsMessage all_on has_everything plain_template keep_mapped failing_env
         a_commit (mkUri None) 3 None (Some Blame))
  = snd (detailsMessage all_on has_everything plain_template keep_mapped
           (without_presence failing_env) a_commit (mkUri None) 3 None (Some Blame)).
Proof.
  assert (Hp : failing_env (MaybeGetPresence (email a_commit)) = Threw (VError "no session"))
    by reflexivity.
  exact (presence_failure_is_swallowed all_on has_everything plain_template keep_mapped
           failing_env a_commit (mkUri None) 3 None (Some Blame) (VError "no session") Hp).
Defined.

Lemma lookups_leave_previous_diff_alone config has filterMap env commit remotes :
  List.filter is_previous_diff_call
    (fst (exec env (getAutoLinkedIssues config has filterMap (message commit) remotes)))
  = [] /\
  List.filter is_previous_diff_call
    (fst (exec env (getPullRequestForCommit config has (ref commit) remotes))) = [] /\
  List.filter is_previous_diff_call (fst (exec env (presence_member commit))) = [].
Proof.
  unfold getAutoLinkedIssues, getPullRequestForCommit, presence_member.
  repeat split; branches; reflexivity.
Qed.

(** X13.  [detailsMessage] asks for the previous line's diff uris only
    for an uncommitted commit, once, for the editor line and the
    document's sha, and only after [getRemotes] has resolved. *)
Theorem previous_line_diff_only_when_uncommitted config has fromTemplate filterMap env
    commit uri editorLine dateFormat annotationType :
  List.filter is_previous_diff_call
    (fst (detailsMessage config has fromTemplate filterMap env commit uri editorLine
            dateFormat annotationType))
  = match env (GetRemotes (repoPath commit)) with
    | Resolved _ =>
        if isUncommitted commit
        then [Issued (GetPreviousLineDiffUris commit editorLine (sha uri))]
        else []
    | Threw _ => []
    end.
Proof.
  unfold detailsMessage.
  destruct (env (GetRemotes (repoPath commit))) as [remotes | ex]; [| reflexivity].
  destruct (lookups_leave_previous_diff_alone config has filterMap env commit remotes)
    as (H2 & H3 & H4).
  destruct (exec env (getAutoLinkedIssues config has filterMap (message commit) remotes))
    as [t2 r2].
  destruct (exec env (getPullRequestForCommit config has (ref commit) remotes))
    as [t3 r3].
  destruct (exec env (presence_member commit)) as [t4 r4].
  simpl in H2, H3, H4.
  assert (Hrest : List.filter is_previous_diff_call (t2 ++ t3 ++ t4) = []).
  { now rewrite !List.filter_app, H2, H3, H4. }
  unfold previousLineDiffUris_member.
  destruct (isUncommitted commit); simpl.
  - destruct (env (GetPreviousLineDiffUris commit editorLine (sha uri)));
      destruct r2, r3, r4; simpl; rewrite ?Hrest; reflexivity.
  - destruct r2, r3, r4; simpl; rewrite ?Hrest; reflexivity.
Qed.

(** X14.  With the (enhanced) autolinks and the pull requests switched
    off, [detailsMessage] issues no lookup call and does not ask any
    provider whether it is connected; a hover that is built is formatted
    with neither autolinked issues nor a pull request. *)
Theorem disabled_lookups_cost_nothing config has fromTemplate filterMap env commit uri
    editorLine dateFormat annotationType :
  autolinks_enabled config = false \/ autolinks_enhanced config = false ->
  pullRequests_enabled config = false ->
  let run := detailsMessage config has fromTemplate filterMap env commit uri editorLine
               dateFormat annotationType in
  lookup_calls (fst run) = [] /\
  (forall p, ~ In (Issued (IsConnected p)) (fst run)) /\
  (forall markdown,
      snd run = Resolved markdown ->
      exists options,
        value markdown = fromTemplate (detailsMarkdownFormat config) commit options /\
        fo_autolinkedIssues options = None /\
        fo_pullRequestOrRemote options = None).
Proof.
  intros Ha Hp run. subst run. unfold_round. rewrite Hp.
  assert (Hgate : negb (autolinks_enabled config) || negb (autolinks_enhanced config)
                  || negb (has (detailsMarkdownFormat config) ["message"]) = true).
  { destruct Ha as [-> | ->]; simpl; now rewrite ?orb_true_r. }
  rewrite Hgate. simpl.
  branches; (split; [reflexivity | split]).
  all: try (intros p Hin; in_trace; fail).
  all: intros markdown H; try discriminate H; injection H as <-;
    eexists; simpl; repeat split; reflexivity.
Qed.

Lemma disabled_lookups_cost_nothing_witness :
  lookup_calls
    (fst (detailsMessage lookups_off has_everything plain_template keep_mapped slow_env
            a_commit (mkUri None) 3 None (Some Blame))) = [].
Proof.
  assert (Ha : autolinks_enabled lookups_off = false \/ autolinks_enhanced lookups_off = false)
    by (right; reflexivity).
  assert (Hp : pullRequests_enabled lookups_off = false) by reflexivity.
  exact (proj1 (disabled_lookups_cost_nothing lookups_off has_everything plain_template
                  keep_mapped slow_env a_commit (mkUri None) 3 None (Some Blame) Ha Hp)).
Defined.

Lemma pull_request_timeout_result config has env ref remotes p ex :
  In (Issued (GitGetPullRequestForCommit ref p 250))
     (fst (exec env (getPullRequestForCommit config has ref remotes))) ->
  env (GitGetPullRequestForCommit ref p 250) = Threw ex ->
  is_CancellationError ex = true ->
  snd (exec env (getPullRequestForCommit config has ref remotes))
  = Resolved (Some (ACancellationError ex)).
Proof.
  unfold getPullRequestForCommit.
  branches; intros Hin He Hc; in_trace; settle_by_env; reflexivity.
Qed.

(** X15.  A pull-request query that times out does not fail the round:
    when [getRemotes] and the previous-line member resolve,
    [detailsMessage] resolves to trusted markdown formatted with the
    [CancellationError] itself as [pullRequestOrRemote], next to the
    remotes and the previous-line uris. *)
Theorem timed_out_pull_request_reaches_the_template config has fromTemplate filterMap env
    commit uri editorLine dateFormat annotationType remotes uris p ex :
  env (GetRemotes (repoPath commit)) = Resolved remotes ->
  snd (exec env (previousLineDiffUris_member commit uri editorLine)) = Resolved uris ->
  In (Issued (GitGetPullRequestForCommit (ref commit) p 250))
     (fst (exec env (getPullRequestForCommit config has (ref commit) remotes))) ->
  env (GitGetPullRequestForCommit (ref commit) p 250) = Threw ex ->
  is_CancellationError ex = true ->
  exists markdown options,
    snd (detailsMessage config has fromTemplate filterMap env commit uri editorLine
           dateFormat annotationType) = Resolved markdown /\
    isTrusted markdown = true /\
    value markdown = fromTemplate (detailsMarkdownFormat config) commit options /\
    fo_pullRequestOrRemote options = Some (ACancellationError ex) /\
    fo_previousLineDiffUris options = uris /\
    fo_remotes options = remotes.
Proof.
  intros Hr Hu Hin He Hc.
  pose proof (pull_request_timeout_result _ _ _ _ _ _ _ Hin He Hc) as H3.
  destruct (getAutoLinkedIssues_resolves config has filterMap env (message commit) remotes)
    as [r2 H2].
  destruct (presence_member_resolves env commit) as [r4 H4].
  unfold detailsMessage. simpl in Hr. rewrite Hr.
  destruct (exec env (previousLineDiffUris_member commit uri editorLine)) as [t1 s1].
  destruct (exec env (getAutoLinkedIssues config has filterMap (message commit) remotes))
    as [t2 s2].
  destruct (exec env (getPullRequestForCommit config has (ref commit) remotes))
    as [t3 s3].
  destruct (exec env (presence_member commit)) as [t4 s4].
  simpl in *. subst. simpl.
  eexists. eexists. repeat split; reflexivity.
Qed.

Lemma timed_out_pull_request_reaches_the_template_witness :
  exists markdown options,
    snd (detailsMessage all_on has_everything plain_template keep_mapped slow_env a_commit
           (mkUri None) 3 None (Some Blame)) = Resolved markdown /\
    isTrusted markdown = true /\
    value markdown = plain_template (detailsMarkdownFormat all_on) a_commit options /\
    fo_pullRequestOrRemote options = Some (ACancellationError pr_timeout) /\
    fo_previousLineDiffUris options = None /\
    fo_remotes options = [github true (Some true)].
Proof.
  apply (timed_out_pull_request_reaches_the_template all_on has_everything plain_template
           keep_mapped slow_env a_commit (mkUri None) 3 None (Some Blame)
           [github true (Some true)] None (mkProvider "GitHub" true (Some true))
           pr_timeout).
  - reflexivity.
  - reflexivity.
  - simpl. right. left. reflexivity.
  - reflexivity.
  - reflexivity.
Defined.

End HoversMoreFacts.

(* ===================================================================== *)
(** * Facts about [Hovers.changesMessage] *)
(* ===================================================================== *)

Module ChangesFacts.

Import Promises Changes.

Lemma append_assoc (a b c : string) : ((a ++ b) ++ c = a ++ b ++ c)%string.
Proof. induction a as [| x a IH]; simpl; [reflexivity | now rewrite IH]. Qed.

Ltac paths :=
  repeat (simpl in *;
          match goal with
          | |- context [match ?x with _ => _ end] =>
              lazymatch x with
              | context [exec] => fail
              | _ => destruct x eqn:?
              end
          end);
  simpl in *.

Ltac answers :=
  subst;
  repeat match goal with
         | H : ?e ?c = _, H' : ?e ?c = _ |- _ => rewrite H in H'
         end;
  try discriminate;
  repeat match goal with
         | H : Hovers.Resolved _ = Hovers.Resolved _ |- _ => injection H as H; subst
         | H : Hovers.Threw _ = Hovers.Threw _ |- _ => injection H as H; subst
         | H : Some _ = Some _ |- _ => injection H as H; subst
         end;
  try congruence.

Lemma commitLine_nil lines n : commitLine lines n = None <-> lines = [].
Proof.
  unfold commitLine. destruct lines as [| l lines]; simpl; [tauto |].
  destruct (Z.eqb (line l) n); [| destruct (find _ lines)]; split; congruence.
Qed.

Section Facts.

Context {collaborators : Collaborators}.
Variable env : Env.

Lemma finish_ends_with_diff message previous current diff :
  exists prefix,
    Hovers.value (finish message previous current diff) = (prefix ++ newline ++ diff)%string.
Proof.
  exists (message ++ " &nbsp; " ++ Dash ++ " &nbsp; " ++ previous
          ++ " &nbsp;" ++ ArrowLeftRightLong ++ "&nbsp; " ++ current)%string.
  unfold finish. cbn [Hovers.value]. rewrite !append_assoc. reflexivity.
Qed.

(** X16.  [changesMessage] catches nothing.  It rejects exactly when a
    blame commit has no lines (reading [originalLine] of undefined,
    before any call), or when the call it issued last rejected, with
    that call's error. *)
Theorem changes_rejections commit uri editorLine hunkLine ex :
  snd (exec env (changesMessage commit uri editorLine hunkLine)) = Hovers.Threw ex <->
  (kind commit = GitBlameCommit [] /\ ex = undefined_commitLine) \/
  (exists c, last (fst (exec env (changesMessage commit uri editorLine hunkLine))) = Some c /\
             env c = Hovers.Threw ex).
Proof.
  unfold changesMessage, locate.
  destruct (kind commit) as [lines |] eqn:Hk.
  - destruct (commitLine lines (editorLine + 1)) as [cl |] eqn:Hc.
    + assert (Hl : lines <> []) by (rewrite <- commitLine_nil, Hc; discriminate).
      paths; (split; [intros Hr | intros [[Hn _] | (c & Hlast & Hc')]]);
        try discriminate; try congruence.
      all: try (injection Hr as <-; right; eexists; split; [reflexivity | assumption]).
      all: try (injection Hlast as <-; answers; fail).
    + apply commitLine_nil in Hc. subst lines. simpl. split.
      * intros [= <-]. left. split; reflexivity.
      * intros [[_ ->] | (c & [=] & _)]. reflexivity.
  - paths; (split; [intros Hr | intros [[Hn _] | (c & Hlast & Hc')]]);
      try discriminate; try congruence.
    all: try (injection Hr as <-; right; eexists; split; [reflexivity | assumption]).
    all: try (injection Hlast as <-; answers; fail).
Qed.

(** X17.  The staged diff is a second try.  [getDiffForLine] is asked
    against [uncommittedStagedSha] exactly when the commit is a blame
    commit that is uncommitted with no ref to diff against, and the first
    query found nothing; it asks for the same document, blamed line and
    file name. *)
Theorem staged_diff_is_the_second_try commit uri editorLine hunkLine u l s f :
  In (GetDiffForLine u l None (Some s) f)
     (fst (exec env (changesMessage commit uri editorLine hunkLine))) <->
  exists lines cl,
    kind commit = GitBlameCommit lines /\
    commitLine lines (editorLine + 1) = Some cl /\
    u = uri /\ l = (originalLine cl - 1)%Z /\ s = uncommittedStagedSha /\
    f = blame_fileName commit uri /\
    isUncommitted commit = true /\
    blame_ref commit (sha uri) = None /\
    env (GetDiffForLine uri l None None f) = Hovers.Resolved None.
Proof.
  assert (Hu : blame_ref commit (sha uri) = None -> isUncommitted commit = true).
  { unfold blame_ref. destruct (isUncommitted commit); [reflexivity | discriminate]. }
  unfold changesMessage, locate. split.
  - intros Hin.
    destruct (kind commit) as [lines |] eqn:Hk.
    + destruct (commitLine lines (editorLine + 1)) as [cl |] eqn:Hc; [| destruct Hin].
      exists lines, cl.
      revert Hin. paths; intros Hin;
        repeat destruct Hin as [[=] | Hin]; try destruct Hin; subst;
        repeat split; auto.
    + revert Hin. paths; intros Hin; repeat destruct Hin as [[=] | Hin]; destruct Hin.
  - intros (lines & cl & -> & -> & -> & -> & -> & -> & _ & Hr & He).
    simpl. rewrite Hr, He. paths; auto.
Qed.

(** X18.  A log commit comes with its hunk line: [changesMessage] never
    calls [getDiffForLine] for it, and without a hunk line it resolves to
    undefined with no call at all. *)
Theorem log_commit_asks_for_no_diff commit uri editorLine hunkLine :
  kind commit = GitLogCommit ->
  List.filter is_diff_call
    (fst (exec env (changesMessage commit uri editorLine hunkLine))) = [] /\
  (hunkLine = None ->
   exec env (changesMessage commit uri editorLine hunkLine) = ([], Hovers.Resolved None)).
Proof.
  intros Hk. unfold changesMessage, locate. rewrite Hk.
  split; [| intros ->; reflexivity].
  paths; reflexivity.
Qed.

(** X19.  A hover that is shown is trusted markdown that ends with a
    newline and the diff block of a hunk line, the commit has a previous
    sha, and the hunk line is the one handed in (log commit) or one that
    a [getDiffForLine] call of this run resolved to (blame commit). *)
Theorem changes_markdown_shows_the_diff commit uri editorLine hunkLine markdown :
  snd (exec env (changesMessage commit uri editorLine hunkLine)) =
    Hovers.Resolved (Some markdown) ->
  Hovers.isTrusted markdown = true /\
  previousSha commit <> None /\
  exists h prefix,
    Hovers.value markdown = (prefix ++ newline ++ getDiffFromHunkLine h)%string /\
    match kind commit with
    | GitLogCommit => hunkLine = Some h
    | GitBlameCommit _ =>
        exists l r1 r2 f,
          In (GetDiffForLine uri l r1 r2 f)
             (fst (exec env (changesMessage commit uri editorLine hunkLine))) /\
          env (GetDiffForLine uri l r1 r2 f) = Hovers.Resolved (Some h)
    end.
Proof.
  unfold changesMessage, locate.
  destruct (kind commit) as [lines |] eqn:Hk.
  - paths; intros [= <-]; (split; [reflexivity |]); (split; [congruence |]).
    all: match goal with
         | |- context [finish ?a ?b ?c (getDiffFromHunkLine ?h)] =>
             destruct (finish_ends_with_diff a b c (getDiffFromHunkLine h)) as (p & Hp);
             exists h, p; split; [exact Hp |]
         end.
    all: eexists _, _, _, _; split; [| eassumption]; simpl; auto.
  - paths; intros [= <-]; (split; [reflexivity |]); (split; [congruence |]).
    all: match goal with
         | |- context [finish ?a ?b ?c (getDiffFromHunkLine ?h)] =>
             destruct (finish_ends_with_diff a b c (getDiffFromHunkLine h)) as (p & Hp);
             exists h, p; split; [exact Hp | reflexivity]
         end.
Qed.

End Facts.

Lemma changes_rejections_witness :
  snd (exec found_env
         (changesMessage (collaborators := plain) (blamed [] None) readme 2 None))
  = Hovers.Threw undefined_commitLine.
Proof.
  apply (proj2 (changes_rejections (collaborators := plain) found_env (blamed [] None)
                  readme 2 None undefined_commitLine)).
  left. split; reflexivity.
Defined.

Lemma staged_diff_is_the_second_try_witness :
  In (GetDiffForLine readme 2 None (Some (@uncommittedStagedSha plain)) None)
     (fst (exec staged_env
             (changesMessage (collaborators := plain) (working [mkLine 3 3]) readme 2 None))).
Proof.
  apply (proj2 (staged_diff_is_the_second_try (collaborators := plain) staged_env
                  (working [mkLine 3 3]) readme 2 None readme 2%Z
                  (@uncommittedStagedSha plain) None)).
  exists [mkLine 3 3], (mkLine 3 3).
  repeat split; reflexivity.
Defined.

Lemma log_commit_asks_for_no_diff_witness :
  List.filter is_diff_call
    (fst (exec found_env
            (changesMessage (collaborators := plain) logged readme 2 (Some a_hunk)))) = [].
Proof.
  assert (Hk : kind logged = GitLogCommit) by reflexivity.
  exact (proj1 (log_commit_asks_for_no_diff (collaborators := plain) found_env logged
                  readme 2 (Some a_hunk) Hk)).
Defined.

Lemma changes_markdown_shows_the_diff_witness :
  exists markdown,
    snd (exec found_env
           (changesMessage (collaborators := plain)
              (blamed [mkLine 3 3] (Some "1c0ffee2")) readme 2 None))
    = Hovers.Resolved (Some markdown) /\
    Hovers.isTrusted markdown = true.
Proof.
  eexists. split.
  - reflexivity.
  - exact (proj1 (changes_markdown_shows_the_diff (collaborators := plain) found_env
                    (blamed [mkLine 3 3] (Some "1c0ffee2")) readme 2 None _ eq_refl)).
Defined.

End ChangesFacts.
